(** * SSR styles plugin (packages/vite/src/plugins/ssr-styles.ts)

    A shallow embedding of the Vite/Rollup plugin that teleports the CSS of
    the client build into loadable style chunks for server rendering, with
    the properties of its naming helper, island classifier, resolution
    guard, chunk walker, style resolver and bundle emitter.

    JavaScript strings are modelled by [string] (sequences of 8-bit code
    units); the line terminators that the regular expression dot excludes
    are then LF and CR.  Plain objects used as dictionaries are modelled
    without the members inherited from [Object.prototype].  A hook call is
    one step of the state: the only places where the asynchronous
    [transform] can be suspended are the calls of [this.resolve], and no
    test-and-update of the plugin spans one of them. *)

From stdpp Require Import gmap strings list fin_maps pretty.
From Stdlib Require Import Ascii.

Local Open Scope bool_scope.

(** ** String primitives used by the plugin *)

Module Str.

Definition is_char (a b : ascii) : bool := bool_decide (a = b).

(** Line terminators: the characters [.] does not match. *)
Definition line_terminator (c : ascii) : bool :=
  is_char c "010"%char || is_char c "013"%char.

Fixpoint all_chars (p : ascii -> bool) (s : string) : bool :=
  match s with
  | EmptyString => true
  | String c r => p c && all_chars p r
  end.

Fixpoint has_char (p : ascii -> bool) (s : string) : bool :=
  match s with
  | EmptyString => false
  | String c r => p c || has_char p r
  end.

Definition nonempty (s : string) : bool :=
  match s with EmptyString => false | String _ _ => true end.

(** [s.endsWith(suf)] *)
Fixpoint endsWith (s suf : string) : bool :=
  if bool_decide (s = suf) then true
  else match s with
       | EmptyString => false
       | String _ r => endsWith r suf
       end.

(** [.+$] matched against the whole remainder [s]: one or more characters,
    none of them a line terminator, up to the end of the input. *)
Definition dot_plus_to_end (s : string) : bool :=
  nonempty s && all_chars (fun c => negb (line_terminator c)) s.

(** [s.replace(/\?.+$/, '')]: the leftmost [?] that is followed, up to the
    end of the string, by at least one character and no line terminator is
    removed together with everything after it. *)
Fixpoint strip_query (s : string) : string :=
  match s with
  | EmptyString => EmptyString
  | String c r =>
      if is_char c "?"%char && dot_plus_to_end r then EmptyString
      else String c (strip_query r)
  end.

Definition tail (s : string) : string :=
  match s with EmptyString => EmptyString | String _ r => r end.

Definition is_sep (c : ascii) : bool := is_char c "/"%char || is_char c "\"%char.
Definition is_dot (c : ascii) : bool := is_char c "."%char.
Definition is_question (c : ascii) : bool := is_char c "?"%char.

(** [path.split(/[/\\]/).pop()] *)
Fixpoint last_segment (s : string) : string :=
  match s with
  | EmptyString => EmptyString
  | String c r =>
      if has_char is_sep r then last_segment r
      else if is_sep c then r else s
  end.

(** [s.slice(0, s.lastIndexOf('.'))] for an [s] that contains a dot. *)
Fixpoint before_last_dot (s : string) : string :=
  match s with
  | EmptyString => EmptyString
  | String c r =>
      if has_char is_dot r then String c (before_last_dot r)
      else if is_dot c then EmptyString else s
  end.

End Str.

(** ** Naming/path helper *)

(** Modelled from the spec: [_filename] is [filename] of [pathe/utils], an
    external dependency that is not part of the sources.  Section 4.1 asks
    for the file-system base name, and for an identifier without extension
    or directory to come back unchanged; the model is the base name without
    its last extension: the last segment after [/] or [\], [undefined]
    ([None]) when that segment is empty, the segment itself when its last
    dot is at index 0 or absent, and otherwise the segment up to its last
    dot. *)
Definition _filename (path : string) : option string :=
  match Str.last_segment path with
  | EmptyString => None
  | String c r =>
      Some (if Str.has_char Str.is_dot r
            then String c (Str.before_last_dot r)
            else String c r)
  end.

(** [function filename (name) { return _filename(name.replace(/\?.+$/, '')) }] *)
Definition filename (name : string) : option string :=
  _filename (Str.strip_query name).

(** [filename(filename(x))]; the helper cannot be called on [undefined]. *)
Definition filename_twice (x : string) : option string :=
  match filename x with
  | Some y => filename y
  | None => None
  end.

(** ** Data model *)

Inductive PluginMode := ModeServer | ModeClient.

(** [Component] of [@nuxt/schema], with the fields the plugin reads. *)
Module Component.
Inductive Mode := client | server | all.

Record t := {
  pascalName : string;
  filePath : string;
  mode : option Mode;      (* mode?: 'client' | 'server' | 'all' *)
  island : bool;           (* island?: boolean; undefined is falsy *)
}.

Definition mode_is (m : Mode) (c : t) : bool :=
  match mode c, m with
  | Some client, client | Some server, server | Some all, all => true
  | _, _ => false
  end.
End Component.

(** [shouldInline?: ((id?: string) => boolean) | boolean] *)
Inductive ShouldInline :=
| InlineUndefined
| InlineBool (b : bool)
| InlineFn (f : option string -> bool).

(** The immutable part of [SSRStylesPluginOptions]; the two shared mutable
    objects [clientCSSMap] and [chunksWithInlinedCSS] live in the state. *)
Record SSRStylesPluginOptions := {
  srcDir : string;
  shouldInline : ShouldInline;
  components : list Component.t;
  entry : string;
  globalCSS : list string;
  mode : PluginMode;
}.


(** A value of a parsed query object: [string | string[]]. *)
Inductive QueryValue := QString (s : string) | QArray (l : list string).

Definition truthy (v : option QueryValue) : bool :=
  match v with
  | None => false
  | Some (QString s) => Str.nonempty s
  | Some (QArray _) => true
  end.

Definition is_style_type (v : option QueryValue) : bool :=
  match v with
  | Some (QString s) => bool_decide (s = "style")
  | _ => false
  end.

Record ParsedURL := { pathname : string; search : string }.
Record StaticImport := { specifier : string }.

(** Functions imported from other modules and packages ([../utils], pathe,
    ufo, mlly, knitwork, node:url): parameters of the development. *)
Class Externals := {
  isCSS : string -> bool;
  isVue : string -> bool;
  relative : string -> string -> string;
  dirname : string -> string;
  pathToFileURL_href : string -> string;
  decodeURIComponent : string -> string;
  parseURL : string -> ParsedURL;
  parseQuery : string -> gmap string QueryValue;
  findStaticImports : string -> list StaticImport;
  genImport : string -> string;
  genObjectFromRawEntries : list (string * string) -> string;
}.

(** Rollup's [ResolvedId], [moduleSideEffects: boolean | 'no-treeshake']. *)
Inductive SideEffects := SideEffectsBool (b : bool) | NoTreeshake.

Record ResolvedId := {
  rid : string;
  external : bool;
  moduleSideEffects : SideEffects;
}.

Definition ReferenceId := nat.

(** The plugin context [this] of one hook call: the resolver and the final
    file names, as the host answers them during that call. *)
Record PluginContext := {
  resolve : string -> option string -> option ResolvedId;
  getFileName : ReferenceId -> string;
}.

Inductive EmittedFile :=
| EmittedChunk (name : string) (id : string)
| EmittedAsset (name fileName originalFileName : option string) (source : string).

(** A call of [this.warn]; [warn_key] is the identifier the call site put
    into [warnCache] just before. *)
Record Warning := { warn_key : string; warn_message : string }.

Record StyleRecord := { files : list ReferenceId; inBundle : option bool }.

(** Plain objects whose enumeration order is observed: association lists in
    insertion order.  [Object.entries] and [for in] visit the keys that are
    array indices first, in ascending numeric order, and then the other keys
    in insertion order: [entries]. *)
Module Obj.

Definition digit (c : ascii) : option N :=
  let n := N_of_ascii c in
  if (48 <=? n)%N && (n <=? 57)%N then Some (n - 48)%N else None.

Fixpoint numeral (s : string) (acc : N) : option N :=
  match s with
  | EmptyString => Some acc
  | String c r =>
      match digit c with
      | Some d => numeral r (10 * acc + d)%N
      | None => None
      end
  end.

(** The value of a key that is an array index: the canonical decimal
    numeral, without leading zero, of an integer from 0 to 2^32 - 2. *)
Definition array_index (k : string) : option N :=
  match k with
  | EmptyString => None
  | String c r =>
      if Str.is_char c "0"%char
      then (if Str.nonempty r then None else Some 0%N)
      else
        match numeral k 0 with
        | Some n => if (n <=? 4294967294)%N then Some n else None
        | None => None
        end
  end.

Section Obj.
Context {V : Type}.

Fixpoint get (k : string) (o : list (string * V)) : option V :=
  match o with
  | [] => None
  | (k', v) :: r => if bool_decide (k' = k) then Some v else get k r
  end.

Fixpoint set (k : string) (v : V) (o : list (string * V)) : list (string * V) :=
  match o with
  | [] => [(k, v)]
  | (k', v') :: r =>
      if bool_decide (k' = k) then (k', v) :: r else (k', v') :: set k v r
  end.

Fixpoint alter (f : V -> V) (k : string) (o : list (string * V)) : list (string * V) :=
  match o with
  | [] => []
  | (k', v') :: r =>
      if bool_decide (k' = k) then (k', f v') :: r else (k', v') :: alter f k r
  end.

Definition has (k : string) (o : list (string * V)) : bool :=
  match get k o with Some _ => true | None => false end.

Definition keys (o : list (string * V)) : list string := map fst o.

Fixpoint insert_index (n : N) (e : string * V) (l : list (N * (string * V)))
  : list (N * (string * V)) :=
  match l with
  | [] => [(n, e)]
  | (n', e') :: r =>
      if (n <? n')%N then (n, e) :: l else (n', e') :: insert_index n e r
  end.

(** The entries whose key is an array index, by ascending index. *)
Fixpoint index_entries (o : list (string * V)) : list (N * (string * V)) :=
  match o with
  | [] => []
  | e :: r =>
      match array_index (fst e) with
      | Some n => insert_index n e (index_entries r)
      | None => index_entries r
      end
  end.

Definition is_named (e : string * V) : bool :=
  match array_index (fst e) with Some _ => false | None => true end.

(** [Object.entries(o)] *)
Definition entries (o : list (string * V)) : list (string * V) :=
  map snd (index_entries o) ++ List.filter is_named o.
End Obj.
End Obj.

(** A JavaScript [Set<string>]: its elements in insertion order. *)
Definition set_add (x : string) (s : list string) : list string :=
  if bool_decide (x ∈ s) then s else s ++ [x].

(** The closure variables of one plugin instance, the two shared objects of
    its options, and what it has handed to the host so far. *)
Record PluginState := {
  cssMap : list (string * StyleRecord);
  idRefMap : gmap string ReferenceId;
  warnCache : gset string;
  islands : list Component.t;
  clientCSSMap : gmap string (list string);
  chunksWithInlinedCSS : gset string;
  emittedFiles : list EmittedFile;
  warnings : list Warning;
}.

Definition with_cssMap (v : list (string * StyleRecord)) (st : PluginState) :=
  {| cssMap := v; idRefMap := idRefMap st; warnCache := warnCache st;
     islands := islands st; clientCSSMap := clientCSSMap st;
     chunksWithInlinedCSS := chunksWithInlinedCSS st;
     emittedFiles := emittedFiles st; warnings := warnings st |}.

Definition with_idRefMap (v : gmap string ReferenceId) (st : PluginState) :=
  {| cssMap := cssMap st; idRefMap := v; warnCache := warnCache st;
     islands := islands st; clientCSSMap := clientCSSMap st;
     chunksWithInlinedCSS := chunksWithInlinedCSS st;
     emittedFiles := emittedFiles st; warnings := warnings st |}.

Definition with_clientCSSMap (v : gmap string (list string)) (st : PluginState) :=
  {| cssMap := cssMap st; idRefMap := idRefMap st; warnCache := warnCache st;
     islands := islands st; clientCSSMap := v;
     chunksWithInlinedCSS := chunksWithInlinedCSS st;
     emittedFiles := emittedFiles st; warnings := warnings st |}.

Definition with_chunksWithInlinedCSS (v : gset string) (st : PluginState) :=
  {| cssMap := cssMap st; idRefMap := idRefMap st; warnCache := warnCache st;
     islands := islands st; clientCSSMap := clientCSSMap st;
     chunksWithInlinedCSS := v;
     emittedFiles := emittedFiles st; warnings := warnings st |}.

(** [this.emitFile(f)]: the host stores the file and hands out a reference
    that no earlier emission received (here: its position in the log). *)
Definition emitFile (f : EmittedFile) (st : PluginState) : ReferenceId * PluginState :=
  (length (emittedFiles st),
   {| cssMap := cssMap st; idRefMap := idRefMap st; warnCache := warnCache st;
      islands := islands st; clientCSSMap := clientCSSMap st;
      chunksWithInlinedCSS := chunksWithInlinedCSS st;
      emittedFiles := emittedFiles st ++ [f]; warnings := warnings st |}).

Definition cannot_extract (file : string) : string :=
  "[nuxt] Cannot extract styles for `" +:+ file
  +:+ "`. Its styles will not be inlined when server-rendering.".

(** [if (!warnCache.has(key)) { warnCache.add(key); this.warn(...subject...) }] *)
Definition warnOnce (key subject : string) (st : PluginState) : PluginState :=
  if bool_decide (key ∈ warnCache st) then st
  else
    {| cssMap := cssMap st; idRefMap := idRefMap st;
       warnCache := warnCache st ∪ {[key]};
       islands := islands st; clientCSSMap := clientCSSMap st;
       chunksWithInlinedCSS := chunksWithInlinedCSS st;
       emittedFiles := emittedFiles st;
       warnings := warnings st ++
         [{| warn_key := key; warn_message := cannot_extract subject |}] |}.

(** [a ?? b] on resolver answers. *)
Definition nullish {A} (a b : option A) : option A :=
  match a with Some x => Some x | None => b end.

(** A template literal prints [undefined] for a missing value. *)
Definition tmpl (o : option string) : string := default "undefined" o.

Definition nl : string := String "010"%char EmptyString.

(** [SUPPORTED_FILES_RE = /\.(?:vue|(?:[cm]?j|t)sx?)$/] *)
Definition SUPPORTED_FILES_RE (path : string) : bool :=
  existsb (Str.endsWith path)
    [".vue"; ".js"; ".jsx"; ".cjs"; ".cjsx"; ".mjs"; ".mjsx"; ".ts"; ".tsx"].

(** ** The plugin *)

(** [outputOptions.assetFileNames]: a pattern or a function of the asset. *)
Record PreRenderedAsset := {
  asset_type : string;
  asset_name : string;
  asset_names : list string;
  asset_originalFileName : string;
  asset_originalFileNames : list string;
  asset_source : string;
}.

Inductive AssetFileNames :=
| AssetPattern (s : string)
| AssetFunction (f : PreRenderedAsset -> string).

Record OutputOptions := { assetFileNames : AssetFileNames }.

Record RenderedChunk := {
  facadeModuleId : option string;
  moduleIds : list string;
}.

(** [options.components.filter(component => component.island ||
      (component.mode === 'server' && !options.components.some(c =>
         c.pascalName === component.pascalName && c.mode === 'client')))] *)
Definition compute_islands (cs : list Component.t) : list Component.t :=
  List.filter (fun component =>
    Component.island component ||
    (Component.mode_is Component.server component &&
     negb (existsb (fun c =>
        bool_decide (Component.pascalName c = Component.pascalName component)
        && Component.mode_is Component.client c) cs))) cs.

(** [x === false || (typeof x === 'function' && !x(arg))] for
    [x = options.shouldInline]. *)
Definition inlineDisallowed (s : ShouldInline) (arg : option string) : bool :=
  match s with
  | InlineBool false => true
  | InlineFn f => negb (f arg)
  | _ => false
  end.

(** [x === true || (typeof x === 'function' && x(arg))] *)
Definition inlineRequested (s : ShouldInline) (arg : option string) : bool :=
  match s with
  | InlineBool true => true
  | InlineFn f => f arg
  | _ => false
  end.

(** [map[k] ||= new Set()] (a [Set] is never falsy). *)
Definition ensure_set (k : string) (m : gmap string (list string)) : gmap string (list string) :=
  match m !! k with
  | Some _ => m
  | None => <[k := []]> m
  end.

(** [(map[k] ||= new Set()).add(x)] *)
Definition ensure_add (k x : string) (m : gmap string (list string)) : gmap string (list string) :=
  <[k := set_add x (default [] (m !! k))]> m.

Definition push_file (ref : ReferenceId) (r : StyleRecord) : StyleRecord :=
  {| files := files r ++ [ref]; inBundle := inBundle r |}.

(** [r.inBundle = r.inBundle ?? v] *)
Definition latch_inBundle (v : bool) (r : StyleRecord) : StyleRecord :=
  {| files := files r;
     inBundle := match inBundle r with Some b => Some b | None => Some v end |}.

Section Plugin.
Context {ext : Externals}.
Variable options : SSRStylesPluginOptions.

Definition relativeToSrcDir (path : string) : string :=
  relative (srcDir options) path.

(** The state right after [SSRStylesPlugin(options)]; [graph] and [chunks]
    are the objects passed as [options.clientCSSMap] and
    [options.chunksWithInlinedCSS]. *)
Definition SSRStylesPlugin (graph : gmap string (list string)) (chunks : gset string)
  : PluginState :=
  {| cssMap := []; idRefMap := ∅; warnCache := ∅;
     islands := compute_islands (components options);
     clientCSSMap := graph; chunksWithInlinedCSS := chunks;
     emittedFiles := []; warnings := [] |}.

(** *** resolveId *)




(** *** generateBundle *)

Definition styles_name (fileName : option string) : string :=
  tmpl fileName +:+ "-styles.mjs".

Definition aggregate_source (this : PluginContext) (baseDir : string)
    (fs : list ReferenceId) : string :=
  String.concat nl
    (imap (fun i css =>
             "import style_" +:+ pretty i +:+ " from './"
             +:+ relative baseDir (getFileName this css) +:+ "';") fs
     ++ ["export default ["
         +:+ String.concat ", " (imap (fun i _ => "style_" +:+ pretty i) fs)
         +:+ "]"]).

(** [typeof assetFileNames === 'string' ? assetFileNames : assetFileNames({...})] *)
Definition asset_base (outputOptions : OutputOptions) (fileName : option string) : string :=
  match assetFileNames outputOptions with
  | AssetPattern s => s
  | AssetFunction f =>
      f {| asset_type := "asset";
           asset_name := styles_name fileName;
           asset_names := [styles_name fileName];
           asset_originalFileName := styles_name fileName;
           asset_originalFileNames := [styles_name fileName];
           asset_source := "" |}
  end.

(** The aggregate module emitted for the record [r] of [file]. *)
Definition aggregate_asset (this : PluginContext) (outputOptions : OutputOptions)
    (entry : string * StyleRecord) : EmittedFile :=
  let fileName := filename (fst entry) in
  let base := asset_base outputOptions fileName in
  let baseDir := dirname base in
  EmittedAsset (Some (styles_name fileName)) None None
    (aggregate_source this baseDir (files (snd entry))).

(** [!files.length || !inBundle] *)
Definition skipped (r : StyleRecord) : bool :=
  bool_decide (length (files r) = 0) || negb (bool_decide (inBundle r = Some true)).

(** One round of the loop over [Object.entries(cssMap)]. *)
Definition generateBundle_step (this : PluginContext) (outputOptions : OutputOptions)
    (acc : list (string * ReferenceId) * PluginState)
    (entry : string * StyleRecord) : list (string * ReferenceId) * PluginState :=
  if skipped (snd entry) then acc
  else
    let '(ref, st') := emitFile (aggregate_asset this outputOptions entry) (snd acc) in
    (Obj.set (fst entry) ref (fst acc), st').

(** The local [emitted] object after the first loop. *)
Definition generateBundle_emitted (this : PluginContext) (outputOptions : OutputOptions)
    (st : PluginState) : list (string * ReferenceId) * PluginState :=
  fold_left (generateBundle_step this outputOptions) (Obj.entries (cssMap st)) ([], st).

Definition loader_source (this : PluginContext) (value : ReferenceId) : string :=
  "() => import('./" +:+ getFileName this value +:+ "').then(interopDefault)".

(** [Object.entries(emitted).map(([key, value]) => [key, `() => ...`])]:
    the mapping written into the directory module. *)
Definition directory_entries (this : PluginContext)
    (emitted : list (string * ReferenceId)) : list (string * string) :=
  map (fun '(key, value) => (key, loader_source this value)) (Obj.entries emitted).

Definition directory_source (this : PluginContext)
    (emitted : list (string * ReferenceId)) : string :=
  String.concat nl
    ["const interopDefault = r => r.default || r || []";
     "export default " +:+ genObjectFromRawEntries (directory_entries this emitted)].

Definition generateBundle (this : PluginContext) (outputOptions : OutputOptions)
    (st : PluginState) : PluginState :=
  match mode options with
  | ModeClient => st
  | ModeServer =>
      let '(emitted, st1) := generateBundle_emitted this outputOptions st in
      let st2 :=
        with_chunksWithInlinedCSS
          (fold_left (fun s key => s ∪ {[key]}) (Obj.keys emitted)
             (chunksWithInlinedCSS st1)) st1 in
      snd (emitFile (EmittedAsset None (Some "styles.mjs") (Some "styles.mjs")
                       (directory_source this emitted)) st2)
  end.

(** *** renderChunk *)

(** [chunk.facadeModuleId === options.entry] *)
Definition isEntry (chunk : RenderedChunk) : bool :=
  match facadeModuleId chunk with
  | Some f => bool_decide (f = entry options)
  | None => false
  end.

(** [[chunk.facadeModuleId, ...chunk.moduleIds].filter(Boolean)] *)
Definition chunk_module_ids (chunk : RenderedChunk) : list string :=
  List.filter Str.nonempty (option_list (facadeModuleId chunk) ++ moduleIds chunk).

(** The client branch of the loop body. *)
Definition renderChunk_client (chunk : RenderedChunk) (moduleId : string)
    (m : gmap string (list string)) : gmap string (list string) :=
  let m := ensure_set moduleId m in
  if isCSS moduleId then
    let m :=
      if isVue moduleId then
        let m := ensure_add moduleId moduleId m in
        let parent := Str.strip_query moduleId in
        ensure_add parent moduleId m
      else m in
    match facadeModuleId chunk with
    | Some f =>
        if isEntry chunk && Str.nonempty f then ensure_add f moduleId m else m
    | None => m
    end
  else m.

(** The server branch of the loop body. *)
Definition renderChunk_server (chunk : RenderedChunk) (moduleId : string)
    (css : list (string * StyleRecord)) : list (string * StyleRecord) :=
  let relativePath := relativeToSrcDir moduleId in
  if Obj.has relativePath css then
    Obj.alter
      (latch_inBundle
         ((isVue moduleId && Str.nonempty (relativeToSrcDir moduleId))
          || isEntry chunk))
      relativePath css
  else css.

Definition renderChunk_step (chunk : RenderedChunk) (st : PluginState)
    (moduleId : string) : PluginState :=
  match mode options with
  | ModeClient =>
      with_clientCSSMap (renderChunk_client chunk moduleId (clientCSSMap st)) st
  | ModeServer =>
      with_cssMap (renderChunk_server chunk moduleId (cssMap st)) st
  end.

(** [renderChunk (_code, chunk)]; the hook returns [null], the code of the
    chunk is left as it is. *)
Definition renderChunk (_code : string) (chunk : RenderedChunk) (st : PluginState)
  : PluginState :=
  let st :=
    match facadeModuleId chunk with
    | Some f =>
        if isEntry chunk
        then with_clientCSSMap (ensure_set f (clientCSSMap st)) st
        else st
    | None => st
    end in
  fold_left (renderChunk_step chunk) (chunk_module_ids chunk) st.

(** *** transform *)

Definition inline_used (file : string) : string := file +:+ "?inline&used".

Definition is_island_path (st : PluginState) (path : string) : bool :=
  existsb (fun c => bool_decide (Component.filePath c = path)) (islands st).

(** Emit the style chunk of [file] for the module [id] and record it. *)
Definition emit_style (id relativeId file : string) (acc : PluginState * nat)
  : PluginState * nat :=
  let '(st, styleCtr) := acc in
  let styleCtr := S styleCtr in
  let '(ref, st) :=
    emitFile (EmittedChunk
                (tmpl (filename id) +:+ "-styles-" +:+ pretty styleCtr +:+ ".mjs")
                (inline_used file)) st in
  let st := with_idRefMap (<[relativeToSrcDir file := ref]> (idRefMap st)) st in
  let st := with_cssMap (Obj.alter (push_file ref) relativeId (cssMap st)) st in
  (st, styleCtr).

(** The loop over the files of the graph (client mode: [options.globalCSS]
    has its own loop below). *)
Definition transform_graph_step (this : PluginContext) (id relativeId : string)
    (emittedIds : gset string) (acc : PluginState * nat) (file : string)
  : PluginState * nat :=
  let resolved := nullish (resolve this file None) (resolve this file (Some id)) in
  let res := nullish (resolve this (inline_used file) None)
                     (resolve this (inline_used file) (Some id)) in
  match resolved, res with
  | Some _, Some _ =>
      if bool_decide (file ∈ emittedIds) then acc
      else emit_style id relativeId file acc
  | _, _ => (warnOnce file file (fst acc), snd acc)
  end.

(** The loop over [findStaticImports(code)]. *)
Definition transform_import_step (this : PluginContext) (id relativeId : string)
    (emittedIds : gset string) (acc : PluginState * nat) (i : StaticImport)
  : PluginState * nat :=
  let type := parseQuery (specifier i) !! "type" in
  if negb (is_style_type type) && negb (Str.endsWith (specifier i) ".css") then acc
  else
    match resolve this (specifier i) (Some id) with
    | None => acc
    | Some resolved =>
        match resolve this (inline_used (rid resolved)) None with
        | None => (warnOnce (rid resolved) (specifier i) (fst acc), snd acc)
        | Some _ =>
            if bool_decide (rid resolved ∈ emittedIds) then acc
            else emit_style id relativeId (rid resolved) acc
        end
    end.

(** The server pass from [const relativeId = ...] on: resolve and emit the
    styles of the module. *)
Definition transform_inline (this : PluginContext) (code id pathname : string)
    (st : PluginState) : PluginState :=
  let relativeId := relativeToSrcDir id in
  let st :=
    if Obj.has relativeId (cssMap st) then st
    else with_cssMap (Obj.set relativeId {| files := []; inBundle := None |} (cssMap st)) st in
  let emittedIds : gset string := ∅ in
  let styleCtr := 0 in
  let ids := default [] (clientCSSMap st !! id) in
  let acc := fold_left (transform_graph_step this id relativeId emittedIds) ids (st, styleCtr) in
  if negb (SUPPORTED_FILES_RE pathname) then fst acc
  else
    fst (fold_left (transform_import_step this id relativeId emittedIds)
           (findStaticImports code) acc).

Definition transform_server (this : PluginContext) (code id : string)
    (st : PluginState) : PluginState :=
  let url := parseURL (decodeURIComponent (pathToFileURL_href id)) in
  if negb (bool_decide (is_Some (clientCSSMap st !! id)))
     && negb (is_island_path st (pathname url)) then st
  else
    let query := parseQuery (search url) in
    if truthy (query !! "macro") || truthy (query !! "nuxt_component") then st
    else if negb (is_island_path st (pathname url))
            && inlineDisallowed (shouldInline options) (Some id) then st
    else transform_inline this code id (pathname url) st.

(** One round of the client loop over [options.globalCSS]; [intro] is what
    [s.prepend] has put in front of the code so far. *)
Definition transform_global_step (this : PluginContext) (id : string)
    (acc : PluginState * string) (file : string) : PluginState * string :=
  let '(st, intro) := acc in
  let resolved := nullish (resolve this file None) (resolve this file (Some id)) in
  let res := nullish (resolve this (inline_used file) None)
                     (resolve this (inline_used file) (Some id)) in
  match resolved, res with
  | Some resolved, Some _ =>
      (with_clientCSSMap (ensure_add id (rid resolved) (clientCSSMap st)) st, intro)
  | _, _ => (warnOnce file file st, (genImport file +:+ nl) +:+ intro)
  end.

Definition transform_client (this : PluginContext) (code id : string)
    (st : PluginState) : PluginState * option string :=
  if bool_decide (id = entry options) && inlineRequested (shouldInline options) (Some id)
  then
    let st := with_clientCSSMap (ensure_set id (clientCSSMap st)) st in
    match globalCSS options with
    | [] => (st, None)
    | _ =>
        let '(st, intro) :=
          fold_left (transform_global_step this id) (globalCSS options) (st, "") in
        (st, if Str.nonempty intro then Some (intro +:+ code) else None)
    end
  else (st, None).

(** [transform (code, id)]: the new state and the code handed back to the
    host, if any (the source map is not modelled). *)
Definition transform (this : PluginContext) (code id : string) (st : PluginState)
  : PluginState * option string :=
  match mode options with
  | ModeClient => transform_client this code id st
  | ModeServer => (transform_server this code id st, None)
  end.

(** [cssMap[key]?.inBundle] *)
Definition inBundle_of (key : string) (st : PluginState) : option bool :=
  Obj.get key (cssMap st) ≫= inBundle.

(** *** A build: the hooks the host calls on one plugin instance *)

Inductive HookCall :=
| CallResolveId (id : string) (importer : option string)
| CallRenderChunk (code : string) (chunk : RenderedChunk)
| CallTransform (code id : string)
| CallGenerateBundle (outputOptions : OutputOptions).

Definition call (st : PluginState) (c : PluginContext * HookCall) : PluginState :=
  match snd c with
  | CallResolveId _ _ => st
  | CallRenderChunk code chunk => renderChunk code chunk st
  | CallTransform code id => fst (transform (fst c) code id st)
  | CallGenerateBundle outputOptions => generateBundle (fst c) outputOptions st
  end.

Definition run (calls : list (PluginContext * HookCall)) (st : PluginState)
  : PluginState :=
  fold_left call calls st.

End Plugin.

(** ** What the hooks leave alone *)

Definition transform_server_frame (st : PluginState) :=
  (islands st, clientCSSMap st, chunksWithInlinedCSS st).

Definition transform_client_frame (st : PluginState) :=
  (cssMap st, idRefMap st, islands st, chunksWithInlinedCSS st, emittedFiles st).

Definition renderChunk_frame (st : PluginState) :=
  (idRefMap st, warnCache st, islands st, chunksWithInlinedCSS st,
   emittedFiles st, warnings st).

Definition generateBundle_frame (st : PluginState) :=
  (cssMap st, idRefMap st, warnCache st, islands st, clientCSSMap st, warnings st).

(** Every warning issued so far is remembered in [warnCache], and no two
    of them have the same key. *)
Definition warn_inv (st : PluginState) : Prop :=
  NoDup (map warn_key (warnings st)) /\
  forall w, w ∈ warnings st -> warn_key w ∈ warnCache st.

(** No two style records have the same key. *)
Definition distinct_keys (st : PluginState) : Prop := NoDup (Obj.keys (cssMap st)).

(** ** Run-time reading of the emitted directory module *)

(** Modelled from the spec: the runtime that imports [styles.mjs] and calls
    its loaders is not part of the sources.  Section 4.5 step 4: each entry is
    a zero-argument loader that imports the aggregate of the module and
    unwraps its default export with
    [interopDefault = r => r.default || r || []].  The values that occur:
    [undefined] or [null], a falsy primitive, a list of style artifacts, and
    a module namespace with its default export. *)
Inductive JsValue :=
| JsUndefined
| JsFalsy
| JsList (items : list string)
| JsNamespace (default_export : JsValue).

(** What a call comes to: it throws, or it returns a value. *)
Inductive Outcome := Throws | Returns (v : JsValue).

Definition js_truthy (v : JsValue) : bool :=
  match v with JsUndefined | JsFalsy => false | _ => true end.

(** [r => r.default || r || []]; reading [default] off [undefined] or
    [null] throws, off a primitive or an array it gives [undefined]. *)
Definition interopDefault (r : JsValue) : Outcome :=
  match r with
  | JsUndefined => Throws
  | JsFalsy => Returns (JsList [])
  | JsList items => Returns (JsList items)
  | JsNamespace d => Returns (if js_truthy d then d else r)
  end.

(** [styles[id]()] on the mapping [entries] of the directory module, where
    [run loader] is what calling the loader with that source comes to.
    Without entry [styles[id]] is [undefined], and calling it throws. *)
Definition invoke_loader (entries : list (string * string))
    (run : string -> Outcome) (id : string) : Outcome :=
  match Obj.get id entries with
  | None => Throws
  | Some loader => run loader
  end.

(** ** A small concrete build, used to evaluate the hooks *)

Module Demo.

Definition strip_prefix (p s : string) : option string :=
  if String.prefix p s
  then Some (String.substring (String.length p) (String.length s - String.length p) s)
  else None.

(** The part of [s] before the first [?], and the rest. *)
Fixpoint split_search (s : string) : string * string :=
  match s with
  | EmptyString => (EmptyString, EmptyString)
  | String c r =>
      if Str.is_char c "?"%char then (EmptyString, s)
      else let p := split_search r in (String c (fst p), snd p)
  end.

Definition quote : string := String "034"%char EmptyString.

(** Stand-ins for the imported functions.  They agree with the real ones
    on the identifiers used below: absolute POSIX paths under [/src],
    plain [.css] and [.vue] files, and the query [?macro=true].
    [pathToFileURL] escapes the [?] of an id as [%3F] and
    [decodeURIComponent] brings it back; the stand-ins skip both steps. *)
#[export] Instance externals : Externals := {|
  isCSS s := Str.endsWith s ".css";
  isVue s := Str.endsWith s ".vue";
  relative from to := default to (strip_prefix (from +:+ "/") to);
  dirname _ := ".";
  pathToFileURL_href id := "file://" +:+ id;
  decodeURIComponent s := s;
  parseURL s :=
    let p := split_search (default s (strip_prefix "file://" s)) in
    {| pathname := fst p; search := snd p |};
  parseQuery s :=
    if bool_decide (s = "?macro=true") then {[ "macro" := QString "true" ]} else ∅;
  findStaticImports code :=
    if bool_decide (code = "import './a.css'; import './a.css'")
    then [ {| specifier := "./a.css" |}; {| specifier := "./a.css" |} ]
    else if bool_decide (code = "import './a.css'")
    then [ {| specifier := "./a.css" |} ]
    else [];
  genImport file := "import " +:+ quote +:+ file +:+ quote +:+ ";";
  genObjectFromRawEntries es :=
    "{ " +:+ String.concat ", " (map (fun '(k, v) => quote +:+ k +:+ quote +:+ ": " +:+ v) es)
    +:+ " }";
|}.

Definition resolved (id : string) : ResolvedId :=
  {| rid := id; external := false; moduleSideEffects := SideEffectsBool true |}.

(** A host in which [/src/a.css] and [/src/b.css] exist and can be
    inlined, [/src/missing.css] exists but has no inlineable variant, and
    single-file components resolve to themselves. *)
Definition host : PluginContext := {|
  resolve spec importer :=
    if bool_decide (spec ∈ ["./a.css"; "/src/a.css"]) then Some (resolved "/src/a.css")
    else if bool_decide (spec = "/src/a.css?inline&used")
    then Some (resolved "/src/a.css?inline&used")
    else if bool_decide (spec = "/src/b.css") then Some (resolved "/src/b.css")
    else if bool_decide (spec = "/src/b.css?inline&used")
    then Some (resolved "/src/b.css?inline&used")
    else if bool_decide (spec = "/src/missing.css") then Some (resolved "/src/missing.css")
    else if Str.endsWith spec ".vue" then Some (resolved spec)
    else None;
  getFileName ref := "chunk-" +:+ pretty ref +:+ ".mjs";
|}.

Definition Foo : Component.t :=
  {| Component.pascalName := "Foo"; Component.filePath := "/src/components/Foo.server.vue";
     Component.mode := Some Component.server; Component.island := false |}.

Definition server_options (s : ShouldInline) : SSRStylesPluginOptions :=
  {| srcDir := "/src"; shouldInline := s; components := [Foo];
     entry := "/src/entry.ts"; globalCSS := []; mode := ModeServer |}.

Definition client_options (s : ShouldInline) : SSRStylesPluginOptions :=
  {| srcDir := "/src"; shouldInline := s; components := [Foo];
     entry := "/src/entry.ts"; globalCSS := ["/src/a.css"]; mode := ModeClient |}.

Definition outputOptions : OutputOptions :=
  {| assetFileNames := AssetPattern "[name].[hash][extname]" |}.

(** The graph left by a client pass in which [/src/a.vue] carried no CSS. *)
Definition graph_a : gmap string (list string) := {[ "/src/a.vue" := [] ]}.

(** The graph left by a client pass in which [/src/a.vue] pulled in
    [/src/a.css]. *)
Definition graph_a_css : gmap string (list string) :=
  {[ "/src/a.vue" := ["/src/a.css"] ]}.

(** The graph left by a client pass in which two modules pulled in
    [/src/missing.css]. *)
Definition graph_missing : gmap string (list string) :=
  {[ "/src/a.vue" := ["/src/missing.css"]; "/src/b.vue" := ["/src/missing.css"] ]}.

Definition two_imports : string := "import './a.css'; import './a.css'".
Definition one_import : string := "import './a.css'".

(** A server pass that never inlines, and a fresh instance of it. *)
Definition never_options : SSRStylesPluginOptions := server_options (InlineBool false).
Definition never_fresh : PluginState := SSRStylesPlugin never_options ∅ ∅.

Definition Foo_id : string := "/src/components/Foo.server.vue".
Definition Foo_macro_id : string := "/src/components/Foo.server.vue?macro=true".

(** A server pass that inlines, in which [/src/a.vue] imports the same
    style sheet twice, is rendered into a chunk of its own and bundled. *)
Definition inline_options : SSRStylesPluginOptions := server_options InlineUndefined.
Definition a_fresh : PluginState := SSRStylesPlugin inline_options graph_a ∅.
Definition a_transformed : PluginState :=
  fst (transform inline_options host two_imports "/src/a.vue" a_fresh).

(** The same module without any style. *)
Definition a_bare : PluginState :=
  fst (transform inline_options host "" "/src/a.vue" a_fresh).

(** The same module with [/src/a.css] both in the graph and imported. *)
Definition a_graph_and_import : PluginState :=
  fst (transform inline_options host one_import "/src/a.vue"
         (SSRStylesPlugin inline_options graph_a_css ∅)).

Definition entry_chunk : RenderedChunk :=
  {| facadeModuleId := Some "/src/entry.ts"; moduleIds := ["/src/entry.ts"] |}.

Definition a_chunk : RenderedChunk :=
  {| facadeModuleId := Some "/src/a.vue"; moduleIds := ["/src/a.vue"] |}.

Definition a_rendered : PluginState := renderChunk inline_options "" a_chunk a_transformed.
Definition a_bare_rendered : PluginState := renderChunk inline_options "" a_chunk a_bare.

(** A state in which a style record was created for [b.vue] and then one
    for a module whose path relative to the source directory is [7], an
    array index: [Object.entries] visits the second record first. *)
Definition indexed : PluginState := {|
  cssMap := [("b.vue", {| files := [0]; inBundle := Some true |});
             ("7", {| files := [1]; inBundle := Some true |})];
  idRefMap := ∅;
  warnCache := ∅;
  islands := [];
  clientCSSMap := ∅;
  chunksWithInlinedCSS := ∅;
  emittedFiles := [EmittedChunk "b-styles-1.mjs" "/src/a.css?inline&used";
                   EmittedChunk "7-styles-1.mjs" "/src/b.css?inline&used"];
  warnings := [];
|}.

End Demo.

#[local] Existing Instance Demo.externals.

(** ** Further notions used to state what the hooks do *)

(** [m'] has every key of [m], and each of its sets continues the set of
    [m] (insertion order kept, elements only added at the end). *)
Definition graph_le (m m' : gmap string (list string)) : Prop :=
  forall k v, m !! k = Some v -> exists v', m' !! k = Some v' /\ v `prefix_of` v'.

(** The set of [k] in the graph, empty when [k] is no key. *)
Definition graph_set (m : gmap string (list string)) (k : string) : list string :=
  default [] (m !! k).

(** [{ files: [] }] *)
Definition empty_record : StyleRecord := {| files := []; inBundle := None |}.

Definition append_files (refs : list ReferenceId) (r : StyleRecord) : StyleRecord :=
  {| files := files r ++ refs; inBundle := inBundle r |}.

Section Inlined.
Context {ext : Externals}.

(** A file of the graph loop that passes both resolutions. *)
Definition graph_target (this : PluginContext) (id file : string) : option string :=
  match nullish (resolve this file None) (resolve this file (Some id)),
        nullish (resolve this (inline_used file) None)
                (resolve this (inline_used file) (Some id)) with
  | Some _, Some _ => Some file
  | _, _ => None
  end.

(** A static import that is a style import, resolves, and whose resolved
    id has an inline variant: the resolved id. *)
Definition import_target (this : PluginContext) (id : string) (i : StaticImport)
  : option string :=
  if negb (is_style_type (parseQuery (specifier i) !! "type"))
     && negb (Str.endsWith (specifier i) ".css") then None
  else
    match resolve this (specifier i) (Some id) with
    | None => None
    | Some resolved =>
        match resolve this (inline_used (rid resolved)) None with
        | None => None
        | Some _ => Some (rid resolved)
        end
    end.

(** The style sheets one server-pass [transform] of [id] meets and can
    inline, one entry per occurrence: the files of the graph in the order of
    their set, then the static imports in the order of the scan. *)
Definition inlined_files (this : PluginContext) (code id path : string)
    (st : PluginState) : list string :=
  omap (graph_target this id) (graph_set (clientCSSMap st) id)
  ++ (if SUPPORTED_FILES_RE path
      then omap (import_target this id) (findStaticImports code) else []).

(** The chunk emitted for the [k]-th style of the module [id]. *)
Definition style_chunk (id : string) (k : nat) (file : string) : EmittedFile :=
  EmittedChunk (tmpl (filename id) +:+ "-styles-" +:+ pretty k +:+ ".mjs")
    (inline_used file).

Definition style_chunks (id : string) (n : nat) (fs : list string) : list EmittedFile :=
  imap (fun i f => style_chunk id (S (n + i)) f) fs.

(** A file of [options.globalCSS] that passes both resolutions in the
    client pass: its resolved id. *)
Definition global_target (this : PluginContext) (id file : string) : option string :=
  match nullish (resolve this file None) (resolve this file (Some id)),
        nullish (resolve this (inline_used file) None)
                (resolve this (inline_used file) (Some id)) with
  | Some resolved, Some _ => Some (rid resolved)
  | _, _ => None
  end.

(** What [s.prepend] has accumulated after the files [fs] failed in this
    order: the import of the last one comes first. *)
Definition prepended_imports (fs : list string) : string :=
  fold_left (fun intro file => (genImport file +:+ nl) +:+ intro) fs "".

End Inlined.

(** What the emission of a style chunk reads and writes: the style
    records, the files handed to the host, and the counter. *)
Definition emission_view (acc : PluginState * nat) :=
  (cssMap (fst acc), emittedFiles (fst acc), snd acc).

(** Every reference recorded for a module is the reference of a chunk this
    plugin emitted for the inline variant of some style sheet. *)
Definition valid_refs (st : PluginState) : Prop :=
  forall k r ref, Obj.get k (cssMap st) = Some r -> ref ∈ files r ->
    exists name file, emittedFiles st !! ref = Some (EmittedChunk name (inline_used file)).

Definition is_renderChunk (c : PluginContext * HookCall) : bool :=
  match snd c with CallRenderChunk _ _ => true | _ => false end.

(** ** A client pass and further server passes, used to evaluate the hooks *)

Module Scenario.

(** A client pass that inlines; its only global style sheet is
    [/src/a.css]. *)
Definition client : SSRStylesPluginOptions := Demo.client_options (InlineBool true).
Definition client_fresh : PluginState := SSRStylesPlugin client ∅ ∅.

(** The entry chunk of the client build, with one style sheet in it. *)
Definition styled_entry_chunk : RenderedChunk :=
  {| facadeModuleId := Some "/src/entry.ts";
     moduleIds := ["/src/entry.ts"; "/src/a.css"] |}.

End Scenario.

(** ** Component names: [resolveComponentNameSegments] *)

Section Names.

(** [splitByCase] of scule and [String.prototype.toLowerCase]: parameters. *)
Variable splitByCase : string -> list string.
Variable toLowerCase : string -> string.

(** [parts.join('/')] *)
Definition join_slash (parts : list string) : string := String.concat "/" parts.

(** The test of one round of the loop, at [index] and with [matchedSuffix]
    as it is after the [unshift]. *)
Definition segment_test (prefixParts : list string) (fileNamePartsContent : string)
    (index : nat) (matchedSuffix : list string) : bool :=
  let prefixPart := default "" (prefixParts !! index) in
  let matchedSuffixContent := join_slash matchedSuffix in
  (bool_decide (fileNamePartsContent = matchedSuffixContent)
   || String.prefix (matchedSuffixContent +:+ "/") fileNamePartsContent)
  || (bool_decide (toLowerCase prefixPart = fileNamePartsContent)
      && match prefixParts !! (index + 1) with
         | Some next => Str.nonempty next
         | None => false
         end
      && bool_decide (prefixParts !! index = prefixParts !! (index + 1))).

(** The loop [while (index >= 0) { ...; index-- }], entered with
    [index = n - 1].  [componentNameParts.length = index] cuts the array or
    pads it with holes, which read as [undefined] ([None]). *)
Fixpoint segments_loop (prefixParts : list string) (fileNamePartsContent : string)
    (n : nat) (matchedSuffix : list string)
    (componentNameParts : list (option string)) : list (option string) :=
  match n with
  | 0 => componentNameParts
  | S index =>
      let prefixPart := default "" (prefixParts !! index) in
      let matchedSuffix := map toLowerCase (splitByCase prefixPart) ++ matchedSuffix in
      let componentNameParts :=
        if segment_test prefixParts fileNamePartsContent index matchedSuffix
        then resize index None componentNameParts
        else componentNameParts in
      segments_loop prefixParts fileNamePartsContent index matchedSuffix
        componentNameParts
  end.

Definition resolveComponentNameSegments (fileName : string) (prefixParts : list string)
  : list (option string) :=
  let fileNameParts := splitByCase fileName in
  let fileNamePartsContent := toLowerCase (join_slash fileNameParts) in
  let componentNameParts := map Some (flat_map splitByCase prefixParts) in
  segments_loop prefixParts fileNamePartsContent (length prefixParts) []
    componentNameParts
  ++ map Some fileNameParts.

(** The lower-cased segments of the prefix parts from [index] on: what
    [matchedSuffix] holds in the round of [index]. *)
Definition matched_suffix (prefixParts : list string) (index : nat) : list string :=
  flat_map (fun p => map toLowerCase (splitByCase p)) (drop index prefixParts).

Definition segment_matches (prefixParts : list string) (fileName : string)
    (index : nat) : bool :=
  segment_test prefixParts (toLowerCase (join_slash (splitByCase fileName))) index
    (matched_suffix prefixParts index).

(** The least index at which the test holds. *)
Definition first_match (prefixParts : list string) (fileName : string) : option nat :=
  List.find (segment_matches prefixParts fileName) (seq 0 (length prefixParts)).

End Names.

Module NamesDemo.

(** Stand-ins that agree with scule and JavaScript on lower-case words
    without separators, and on the empty string. *)
Definition splitByCase (s : string) : list string :=
  if Str.nonempty s then [s] else [].
Definition toLowerCase (s : string) : string := s.

End NamesDemo.

Module ClientDemo.

(** A client pass that inlines, with one global style sheet that has no
    inlineable variant and one that has. *)
Definition options : SSRStylesPluginOptions :=
  {| srcDir := "/src"; shouldInline := InlineBool true; components := [];
     entry := "/src/entry.ts"; globalCSS := ["/src/missing.css"; "/src/a.css"];
     mode := ModeClient |}.

Definition fresh : PluginState := SSRStylesPlugin options ∅ ∅.

End ClientDemo.

(** * Properties *)

(** ** Naming/path helper *)

Section Filename.

Lemma strip_query_no_question (s : string) :
  Str.has_char Str.is_question s = false -> Str.strip_query s = s.
Proof.
  induction s as [|c r IH]; simpl; [done|].
  intros [Hc Hr]%orb_false_iff.
  unfold Str.is_question in Hc. rewrite Hc. simpl. by rewrite IH.
Qed.

Lemma last_segment_no_sep (s : string) :
  Str.has_char Str.is_sep s = false -> Str.last_segment s = s.
Proof.
  destruct s as [|c r]; simpl; [done|].
  intros [Hc Hr]%orb_false_iff. by rewrite Hr, Hc.
Qed.

Lemma last_segment_clean (s : string) :
  Str.has_char Str.is_sep (Str.last_segment s) = false.
Proof.
  induction s as [|c r IH]; simpl; [done|].
  destruct (Str.has_char Str.is_sep r) eqn:Hr; [done|].
  destruct (Str.is_sep c) eqn:Hc; [done|].
  simpl. by rewrite Hc, Hr.
Qed.

Lemma before_last_dot_chars (p : ascii -> bool) (s : string) :
  Str.has_char p s = false -> Str.has_char p (Str.before_last_dot s) = false.
Proof.
  induction s as [|c r IH]; simpl; [done|].
  intros [Hc Hr]%orb_false_iff.
  destruct (Str.has_char Str.is_dot r); simpl.
  - by rewrite Hc, IH.
  - destruct (Str.is_dot c); simpl; [done|]. by rewrite Hc, Hr.
Qed.

(** What [_filename] returns never contains a path separator. *)
Lemma _filename_clean (path y : string) :
  _filename path = Some y -> Str.has_char Str.is_sep y = false.
Proof.
  unfold _filename. intros H.
  pose proof (last_segment_clean path) as Hseg.
  destruct (Str.last_segment path) as [|c r]; [done|].
  simpl in Hseg. apply orb_false_iff in Hseg as [Hc Hr].
  destruct (Str.has_char Str.is_dot r); simplify_eq; simpl; rewrite Hc; simpl.
  - by apply before_last_dot_chars.
  - done.
Qed.

(** A non-empty name without query, directory and extension is a fixed
    point of the helper. *)
Lemma filename_plain (x : string) :
  x <> "" ->
  Str.has_char Str.is_question x = false ->
  Str.has_char Str.is_sep x = false ->
  Str.has_char Str.is_dot (Str.tail x) = false ->
  filename x = Some x.
Proof.
  intros Hne Hq Hsep Hdot. unfold filename, _filename.
  rewrite strip_query_no_question, last_segment_no_sep by done.
  destruct x as [|c r]; [done|]. simpl in Hdot. by rewrite Hdot.
Qed.

End Filename.

(** C3 (as the spec states it, refuted): the helper is not idempotent.  A
    base name with two extensions loses one extension per application:
    the module of a server component, [Foo.server.vue], is named
    ["Foo.server"], and ["Foo.server"] is named ["Foo"]. *)
Lemma filename_not_idempotent :
  filename "/src/components/Foo.server.vue" = Some "Foo.server" /\
  filename_twice "/src/components/Foo.server.vue" = Some "Foo" /\
  filename "a.b.c" = Some "a.b" /\
  filename_twice "a.b.c" = Some "a" /\
  ~ (forall x : string, filename_twice x = filename x).
Proof.
  do 4 (split; [reflexivity|]).
  intros H. specialize (H "a.b.c"). vm_compute in H. discriminate.
Qed.

(** C3 (amended): the helper is a total function from strings to a string
    or [undefined]; it answers [undefined] exactly when the identifier
    without its query suffix is empty or ends in a path separator, and
    otherwise the last path segment of the identifier without its query
    suffix, cut at its last dot unless that dot is its first character; a
    non-empty identifier with no [?], no path separator and no dot after its
    first character is returned unchanged; and the helper is idempotent on
    every [x] whose result has no [?] and no dot after its first character. *)
Theorem filename_base_name :
  (forall x : string,
     filename x = None <-> Str.last_segment (Str.strip_query x) = "") /\
  (forall x c r,
     Str.last_segment (Str.strip_query x) = String c r ->
     filename x = Some (if Str.has_char Str.is_dot r
                        then String c (Str.before_last_dot r) else String c r)) /\
  (forall x : string,
     x <> "" ->
     Str.has_char Str.is_question x = false ->
     Str.has_char Str.is_sep x = false ->
     Str.has_char Str.is_dot (Str.tail x) = false ->
     filename x = Some x) /\
  (forall x y : string,
     filename x = Some y ->
     Str.has_char Str.is_question y = false ->
     Str.has_char Str.is_dot (Str.tail y) = false ->
     filename_twice x = filename x).
Proof.
  split; [|split; [|split]].
  - intros x. unfold filename, _filename.
    destruct (Str.last_segment (Str.strip_query x)); [done|]. split; done.
  - intros x c r H. unfold filename, _filename. by rewrite H.
  - apply filename_plain.
  - intros x y Hx Hq Hdot. unfold filename_twice. rewrite Hx.
    apply filename_plain; [|done| |done].
    + intros ->. unfold filename, _filename in Hx.
      destruct (Str.last_segment (Str.strip_query x)) as [|c r]; [done|].
      destruct (Str.has_char Str.is_dot r); done.
    + by eapply _filename_clean.
Qed.

Lemma filename_base_name_witness :
  filename "/src/pages/index.vue?vue&type=style&index=0&lang.css" = Some "index" /\
  filename "index" = Some "index" /\
  filename_twice "/src/pages/index.vue" = filename "/src/pages/index.vue".
Proof.
  destruct filename_base_name as (_ & H2 & H3 & H4).
  split; [|split].
  - apply (H2 _ "i"%char "ndex.vue"). reflexivity.
  - apply H3; [discriminate|reflexivity..].
  - apply (H4 _ "index"); reflexivity.
Defined.

(** ** Loops and frames *)

Lemma fold_left_invariant {A B} (P : A -> Prop) (f : A -> B -> A) (l : list B) (a : A) :
  P a -> (forall a x, P a -> P (f a x)) -> P (fold_left f l a).
Proof.
  intros Ha Hf. revert a Ha. induction l as [|x l IH]; simpl; auto.
Qed.

Section Frames.
Context {ext : Externals}.
Variable options : SSRStylesPluginOptions.

Lemma warnOnce_server_frame key subject st :
  transform_server_frame (warnOnce key subject st) = transform_server_frame st.
Proof. unfold warnOnce. by case_bool_decide. Qed.

Lemma emit_style_server_frame id relativeId file acc :
  transform_server_frame (fst (emit_style options id relativeId file acc))
  = transform_server_frame (fst acc).
Proof. by destruct acc. Qed.

Lemma transform_graph_step_server_frame this id relativeId emittedIds acc file :
  transform_server_frame
    (fst (transform_graph_step options this id relativeId emittedIds acc file))
  = transform_server_frame (fst acc).
Proof.
  unfold transform_graph_step.
  repeat case_match; simpl;
    auto using warnOnce_server_frame, emit_style_server_frame.
Qed.

Lemma transform_import_step_server_frame this id relativeId emittedIds acc i :
  transform_server_frame
    (fst (transform_import_step options this id relativeId emittedIds acc i))
  = transform_server_frame (fst acc).
Proof.
  unfold transform_import_step.
  repeat case_match; simpl;
    auto using warnOnce_server_frame, emit_style_server_frame.
Qed.

Lemma transform_inline_frame this code id path st :
  transform_server_frame (transform_inline options this code id path st)
  = transform_server_frame st.
Proof.
  unfold transform_inline.
  set (st1 := if Obj.has _ _ then st else _).
  assert (transform_server_frame st1 = transform_server_frame st) as <-
    by (subst st1; by case_match).
  set (acc := fold_left _ (default [] _) _).
  assert (transform_server_frame (fst acc) = transform_server_frame st1) as <-.
  { subst acc.
    apply (fold_left_invariant
             (fun a => transform_server_frame (fst a) = transform_server_frame st1));
      [done|].
    intros a x <-. apply transform_graph_step_server_frame. }
  case_match; [done|].
  apply (fold_left_invariant
           (fun a => transform_server_frame (fst a) = transform_server_frame (fst acc)));
    [done|].
  intros a x <-. apply transform_import_step_server_frame.
Qed.

Lemma transform_server_frame_eq this code id st :
  transform_server_frame (transform_server options this code id st)
  = transform_server_frame st.
Proof.
  unfold transform_server.
  repeat case_match; auto using transform_inline_frame.
Qed.

Lemma transform_global_step_frame this id acc file :
  transform_client_frame (fst (transform_global_step this id acc file))
  = transform_client_frame (fst acc).
Proof.
  unfold transform_global_step, warnOnce. destruct acc as [st intro].
  repeat case_match; simpl; done.
Qed.

Lemma transform_client_frame_eq this code id st :
  transform_client_frame (fst (transform_client options this code id st))
  = transform_client_frame st.
Proof.
  unfold transform_client.
  case_match; [|done]. case_match; [done|].
  match goal with
  | |- context [fold_left ?f ?l ?a0] =>
      pose proof (fold_left_invariant
                    (fun p => transform_client_frame (fst p) = transform_client_frame st)
                    f l a0) as H'
  end.
  destruct (fold_left _ _ _) as [st' intro]. simpl in *.
  apply H'; [done|]. intros a x <-. apply transform_global_step_frame.
Qed.

Lemma renderChunk_frame_eq code chunk st :
  renderChunk_frame (renderChunk options code chunk st) = renderChunk_frame st.
Proof.
  unfold renderChunk.
  set (st1 := match facadeModuleId chunk with Some _ => _ | None => _ end).
  assert (renderChunk_frame st1 = renderChunk_frame st) as <-
    by (subst st1; by repeat case_match).
  apply (fold_left_invariant (fun a => renderChunk_frame a = renderChunk_frame st1));
    [done|].
  intros a x <-. unfold renderChunk_step. by case_match.
Qed.

Lemma generateBundle_emitted_frame this oo st :
  generateBundle_frame (snd (generateBundle_emitted this oo st))
  = generateBundle_frame st.
Proof.
  unfold generateBundle_emitted.
  apply (fold_left_invariant
           (fun a => generateBundle_frame (snd a) = generateBundle_frame st)); [done|].
  intros [em a] [file r] <-. unfold generateBundle_step, emitFile.
  by case_match.
Qed.

Lemma generateBundle_frame_eq this oo st :
  generateBundle_frame (generateBundle options this oo st) = generateBundle_frame st.
Proof.
  unfold generateBundle. case_match; [|done].
  pose proof (generateBundle_emitted_frame this oo st) as H'.
  destruct (generateBundle_emitted _ _ _) as [em st1]. by simpl in *.
Qed.

Lemma transform_islands this code id st :
  islands (fst (transform options this code id st)) = islands st.
Proof.
  unfold transform. case_match; simpl.
  - pose proof (transform_server_frame_eq this code id st) as H'. by injection H'.
  - pose proof (transform_client_frame_eq this code id st) as H'. by injection H'.
Qed.

Lemma run_islands calls st :
  islands (run options calls st) = islands st.
Proof.
  unfold run.
  apply (fold_left_invariant (fun a => islands a = islands st)); [done|].
  intros a [this c] <-. unfold call. simpl. destruct c; [done|..].
  - pose proof (renderChunk_frame_eq code chunk a) as H'. by injection H'.
  - apply transform_islands.
  - pose proof (generateBundle_frame_eq this outputOptions a) as H'. by injection H'.
Qed.

End Frames.

(** ** Island classifier *)

Lemma mode_is_spec (m : Component.Mode) (c : Component.t) :
  Component.mode_is m c = true <-> Component.mode c = Some m.
Proof.
  unfold Component.mode_is.
  destruct (Component.mode c) as [[]|], m; split; intros; simplify_eq; done.
Qed.

(** C4: a component is in the island list of a plugin instance, at
    construction and after any sequence of hook calls, exactly when it is a
    component of the options that is flagged as an island, or has mode
    [server] while no other component of the list with the same
    [pascalName] has mode [client]. *)
Theorem islands_classification {ext : Externals} (options : SSRStylesPluginOptions)
    (graph : gmap string (list string)) (chunks : gset string)
    (calls : list (PluginContext * HookCall)) (c : Component.t) :
  c ∈ islands (run options calls (SSRStylesPlugin options graph chunks))
  <->
  c ∈ components options /\
  (Component.island c = true \/
   (Component.mode c = Some Component.server /\
    ~ exists c', c' ∈ components options /\ c' <> c /\
                 Component.pascalName c' = Component.pascalName c /\
                 Component.mode c' = Some Component.client)).
Proof.
  rewrite run_islands. simpl. unfold compute_islands.
  rewrite !list_elem_of_In, filter_In.
  apply and_iff_compat_l.
  rewrite orb_true_iff, andb_true_iff, negb_true_iff, mode_is_spec.
  apply or_iff_compat_l.
  split; intros [Hserver Hno]; (split; [done|]).
  - intros (c' & Hin & _ & Hname & Hclient).
    apply not_true_iff_false in Hno. apply Hno, existsb_exists.
    exists c'. rewrite <- list_elem_of_In, andb_true_iff, bool_decide_eq_true, mode_is_spec.
    done.
  - apply not_true_iff_false. intros (c' & Hin & H')%existsb_exists.
    rewrite andb_true_iff, bool_decide_eq_true, mode_is_spec in H'.
    destruct H' as [Hname Hclient].
    apply Hno. exists c'. rewrite list_elem_of_In.
    repeat split; try done. intros ->. congruence.
Qed.

(** ** Resolution guard *)



(** In the client pass the entry module is handled only for
    [shouldInline: true] or a predicate that holds: there an undefined
    option does not act as [true]. *)
Lemma undefined_differs_in_client_pass :
  clientCSSMap (fst (transform (Demo.client_options InlineUndefined)
                       Demo.host "" "/src/entry.ts"
                       (SSRStylesPlugin (Demo.client_options InlineUndefined) ∅ ∅))) = ∅ /\
  clientCSSMap (fst (transform (Demo.client_options (InlineBool true))
                       Demo.host "" "/src/entry.ts"
                       (SSRStylesPlugin (Demo.client_options (InlineBool true)) ∅ ∅)))
  = {[ "/src/entry.ts" := ["/src/a.css"] ]}.
Proof. split; vm_compute; reflexivity. Qed.

(** ** Server-pass style resolver: which modules are processed *)

(** C5 (as the spec states it, refuted): a module of an island whose query
    marks it as a macro is skipped.  [Foo] is a server component without
    client counterpart, hence an island; its module with [?macro=true] has
    the path of the island, and [transform] leaves the state as it is, where
    resolving its styles would have created its style record. *)
Lemma island_macro_module_is_skipped :
  is_island_path Demo.never_fresh
    (pathname (parseURL (decodeURIComponent (pathToFileURL_href Demo.Foo_macro_id))))
  = true /\
  transform Demo.never_options Demo.host "" Demo.Foo_macro_id Demo.never_fresh
  = (Demo.never_fresh, None) /\
  cssMap (transform_inline Demo.never_options Demo.host "" Demo.Foo_macro_id
            Demo.Foo_id Demo.never_fresh)
  = [("components/Foo.server.vue?macro=true", {| files := []; inBundle := None |})] /\
  transform Demo.never_options Demo.host "" Demo.Foo_macro_id Demo.never_fresh
  <> (transform_inline Demo.never_options Demo.host "" Demo.Foo_macro_id
        Demo.Foo_id Demo.never_fresh, None).
Proof.
  repeat split; try (vm_compute; reflexivity).
  intros H. apply (f_equal (fun p => cssMap (fst p))) in H.
  vm_compute in H. discriminate.
Qed.

(** C5 (amended): in the server pass, a module whose decoded path is the
    [filePath] of an island and whose query has neither [macro] nor
    [nuxt_component] set goes on to resolve and emit its styles, whatever
    [shouldInline] is; a module that is not an island and for which
    [shouldInline] is [false] or a predicate that fails on its id is skipped:
    the state is unchanged and nothing is emitted. *)
Theorem island_modules_bypass_inline_check {ext : Externals}
    (options : SSRStylesPluginOptions) (this : PluginContext)
    (code id : string) (st : PluginState) :
  mode options = ModeServer ->
  (is_island_path st
     (pathname (parseURL (decodeURIComponent (pathToFileURL_href id)))) = true ->
   truthy (parseQuery (search (parseURL (decodeURIComponent (pathToFileURL_href id))))
             !! "macro") = false ->
   truthy (parseQuery (search (parseURL (decodeURIComponent (pathToFileURL_href id))))
             !! "nuxt_component") = false ->
   transform options this code id st
   = (transform_inline options this code id
        (pathname (parseURL (decodeURIComponent (pathToFileURL_href id)))) st, None)) /\
  (is_island_path st
     (pathname (parseURL (decodeURIComponent (pathToFileURL_href id)))) = false ->
   inlineDisallowed (shouldInline options) (Some id) = true ->
   transform options this code id st = (st, None)).
Proof.
  intros Hmode. unfold transform. rewrite Hmode.
  unfold transform_server. split.
  - intros -> -> ->. simpl. by rewrite andb_false_r.
  - intros -> ->. simpl. rewrite !andb_true_r.
    by repeat case_match.
Qed.

Lemma island_modules_bypass_inline_check_witness :
  transform Demo.never_options Demo.host "" Demo.Foo_id Demo.never_fresh
  = (transform_inline Demo.never_options Demo.host "" Demo.Foo_id Demo.Foo_id
       Demo.never_fresh, None) /\
  transform Demo.never_options Demo.host "" "/src/a.vue" Demo.never_fresh
  = (Demo.never_fresh, None).
Proof.
  split.
  - destruct (island_modules_bypass_inline_check Demo.never_options Demo.host ""
                Demo.Foo_id Demo.never_fresh eq_refl) as [H _].
    apply H; reflexivity.
  - destruct (island_modules_bypass_inline_check Demo.never_options Demo.host ""
                "/src/a.vue" Demo.never_fresh eq_refl) as [_ H].
    apply H; reflexivity.
Defined.

(** ** Insertion-ordered objects *)

Section ObjFacts.
Context {V : Type}.
Implicit Types (o : list (string * V)) (k : string) (v : V).

Lemma get_alter (f : V -> V) k k' o :
  Obj.get k (Obj.alter f k' o)
  = if bool_decide (k' = k) then f <$> Obj.get k o else Obj.get k o.
Proof.
  induction o as [|[k0 v0] o IH]; simpl; [by case_bool_decide|].
  repeat (case_bool_decide; simpl; simplify_eq); try done.
  all: rewrite IH; by repeat (case_bool_decide; simplify_eq).
Qed.

Lemma get_set k k' v o :
  Obj.get k (Obj.set k' v o)
  = if bool_decide (k' = k) then Some v else Obj.get k o.
Proof.
  induction o as [|[k0 v0] o IH]; simpl; [done|].
  repeat (case_bool_decide; simpl; simplify_eq); try done.
  all: rewrite IH; by repeat (case_bool_decide; simplify_eq).
Qed.

Lemma has_false k o : Obj.has k o = false <-> Obj.get k o = None.
Proof. unfold Obj.has. by destruct (Obj.get k o). Qed.

Lemma get_is_Some k o : is_Some (Obj.get k o) <-> k ∈ Obj.keys o.
Proof.
  unfold Obj.keys. induction o as [|[k0 v0] o IH]; simpl.
  - split; [by intros [? ?]|by intros ?%elem_of_nil].
  - rewrite elem_of_cons. case_bool_decide as Hk; simpl.
    + split; [by left|by eexists].
    + rewrite IH. split; [by right|]. by intros [->|].
Qed.

Lemma keys_set k k' v o :
  k ∈ Obj.keys (Obj.set k' v o) <-> k = k' \/ k ∈ Obj.keys o.
Proof.
  rewrite <- !get_is_Some, get_set. case_bool_decide as Hk.
  - split; [by left|by eexists].
  - split; [by right|]. by intros [->|].
Qed.

Lemma keys_alter (f : V -> V) k o : Obj.keys (Obj.alter f k o) = Obj.keys o.
Proof.
  unfold Obj.keys. induction o as [|[k0 v0] o IH]; simpl; [done|].
  case_bool_decide; simpl; by rewrite ?IH.
Qed.

Lemma keys_set_fresh k v o :
  Obj.get k o = None -> Obj.keys (Obj.set k v o) = Obj.keys o ++ [k].
Proof.
  unfold Obj.keys. induction o as [|[k0 v0] o IH]; simpl; [done|].
  case_bool_decide; [done|]. intros Hget. simpl. by rewrite IH.
Qed.

Lemma elem_of_get k v o :
  NoDup (Obj.keys o) -> (k, v) ∈ o -> Obj.get k o = Some v.
Proof.
  unfold Obj.keys. induction o as [|[k0 v0] o IH]; simpl.
  - by intros _ ?%elem_of_nil.
  - intros [Hk0 Hnd]%NoDup_cons [?|Hin]%elem_of_cons; simplify_eq.
    + by rewrite bool_decide_true.
    + rewrite bool_decide_false; [by apply IH|].
      intros ->. apply Hk0. apply list_elem_of_fmap. by exists (k, v).
Qed.

Lemma keys_set_NoDup k v o : NoDup (Obj.keys o) -> NoDup (Obj.keys (Obj.set k v o)).
Proof.
  intros Hnd. destruct (Obj.get k o) as [v'|] eqn:Hget.
  - assert (Obj.keys (Obj.set k v o) = Obj.keys o) as ->; [|done].
    clear Hnd. unfold Obj.keys. induction o as [|[k0 v0] o IH]; simpl in *; [done|].
    case_bool_decide; simpl; [done|]. by rewrite IH.
  - rewrite keys_set_fresh by done. apply NoDup_app. split; [done|]. split.
    + intros k' Hk' ->%list_elem_of_singleton.
      apply get_is_Some in Hk' as [? Hk']. congruence.
    + apply NoDup_singleton.
Qed.

Lemma elem_of_insert_index (n : N) (e : string * V) l x :
  x ∈ Obj.insert_index n e l <-> x = (n, e) \/ x ∈ l.
Proof.
  induction l as [|[n' e'] l IH]; simpl.
  - rewrite list_elem_of_singleton, elem_of_nil. tauto.
  - destruct (n <? n')%N; rewrite !elem_of_cons, ?IH; tauto.
Qed.

Lemma elem_of_index_entries (n : N) (e : string * V) o :
  (n, e) ∈ Obj.index_entries o <-> e ∈ o /\ Obj.array_index (fst e) = Some n.
Proof.
  induction o as [|e0 o IH]; simpl.
  - split; [by intros ?%elem_of_nil|by intros [?%elem_of_nil _]].
  - destruct (Obj.array_index (fst e0)) as [n0|] eqn:He0.
    + rewrite elem_of_insert_index, IH, elem_of_cons. split.
      * intros [?|[? ?]]; simplify_eq; [by split; [left|]|by split; [right|]].
      * intros [[->|?] ?]; [left; congruence|by right].
    + rewrite IH, elem_of_cons. split; [by intros [? ?]; split; [right|]|].
      intros [[->|?] ?]; [congruence|done].
Qed.

(** [Object.entries] visits every entry, and nothing else. *)
Lemma elem_of_entries (e : string * V) o : e ∈ Obj.entries o <-> e ∈ o.
Proof.
  unfold Obj.entries, Obj.is_named. rewrite elem_of_app, list_elem_of_fmap. split.
  - intros [([n e'] & -> & Hin)|Hin].
    + by apply elem_of_index_entries in Hin as [? _].
    + by apply list_elem_of_In, filter_In in Hin as [?%list_elem_of_In _].
  - intros Hin. destruct (Obj.array_index (fst e)) as [n|] eqn:He.
    + left. exists (n, e). split; [done|]. by apply elem_of_index_entries.
    + right. apply list_elem_of_In, filter_In. rewrite <- list_elem_of_In.
      by rewrite He.
Qed.

(** Without array indices among the keys, it visits them in insertion
    order. *)
Lemma entries_named o :
  Forall (fun e => Obj.array_index (fst e) = None) o -> Obj.entries o = o.
Proof.
  intros Hall. unfold Obj.entries.
  assert (Obj.index_entries o = []) as ->.
  { induction Hall as [|e o He _ IH]; simpl; [done|]. by rewrite He. }
  simpl. induction Hall as [|e o He _ IH]; simpl; [done|].
  unfold Obj.is_named at 1. rewrite He. by f_equal.
Qed.

End ObjFacts.

(** Keys that are array indices (canonical numerals up to 2^32 - 2) come
    first, in ascending numeric order, then the other keys in insertion
    order. *)
Lemma entries_visits_array_indices_first :
  Obj.entries [("b", 1); ("10", 2); ("2", 3); ("01", 4); ("0", 5);
               ("4294967295", 6); ("4294967294", 7)]
  = [("0", 5); ("2", 3); ("10", 2); ("4294967294", 7);
     ("b", 1); ("01", 4); ("4294967295", 6)].
Proof. vm_compute. reflexivity. Qed.

(** ** Chunk walker, server pass: the [inBundle] latch *)

Section InBundle.
Context {ext : Externals}.
Variable options : SSRStylesPluginOptions.

Lemma renderChunk_server_get chunk moduleId css key :
  Obj.get key (renderChunk_server options chunk moduleId css)
  = if bool_decide (relativeToSrcDir options moduleId = key)
    then latch_inBundle ((isVue moduleId && Str.nonempty key) || isEntry options chunk)
           <$> Obj.get key css
    else Obj.get key css.
Proof.
  unfold renderChunk_server.
  destruct (Obj.has _ css) eqn:Hhas.
  - rewrite get_alter. by case_bool_decide; simplify_eq.
  - apply has_false in Hhas. case_bool_decide; simplify_eq; [|done].
    by rewrite Hhas.
Qed.

Lemma renderChunk_server_fold chunk ids st key r :
  mode options = ModeServer ->
  Obj.get key (cssMap st) = Some r ->
  Obj.get key (cssMap (fold_left (renderChunk_step options chunk) ids st))
  = Some {| files := files r;
            inBundle :=
              match inBundle r with
              | Some b => Some b
              | None =>
                  match List.find
                          (fun m => bool_decide (relativeToSrcDir options m = key)) ids with
                  | Some m =>
                      Some ((isVue m && Str.nonempty key) || isEntry options chunk)
                  | None => None
                  end
              end |}.
Proof.
  intros Hmode. revert st r.
  induction ids as [|m ids IH]; intros st r Hget; simpl.
  - rewrite Hget. by destruct r as [fs [b|]].
  - unfold renderChunk_step at 2. rewrite Hmode.
    destruct (decide (relativeToSrcDir options m = key)) as [Heq|Hne].
    + rewrite (IH _ (latch_inBundle
                       ((isVue m && Str.nonempty key) || isEntry options chunk) r)).
      * rewrite bool_decide_true by done. simpl. by destruct (inBundle r).
      * simpl. by rewrite renderChunk_server_get, Hget, bool_decide_true.
    + rewrite (IH _ r).
      * by rewrite bool_decide_false.
      * simpl. by rewrite renderChunk_server_get, Hget, bool_decide_false.
Qed.

Lemma transform_inline_inBundle this code id path st key b :
  inBundle_of key st = Some b ->
  inBundle_of key (transform_inline options this code id path st) = Some b.
Proof.
  assert (Hemit : forall id0 rel file acc,
             inBundle_of key (fst acc) = Some b ->
             inBundle_of key (fst (emit_style options id0 rel file acc)) = Some b).
  { intros id0 rel file [a n]. unfold inBundle_of. simpl.
    rewrite get_alter. case_bool_decide; [|done].
    by destruct (Obj.get key (cssMap a)). }
  assert (Hwarn : forall k s a, inBundle_of key (warnOnce k s a) = inBundle_of key a).
  { intros k s a. unfold warnOnce. by case_bool_decide. }
  intros Hb. unfold transform_inline.
  set (st1 := if Obj.has _ _ then st else _).
  assert (inBundle_of key st1 = Some b) as Hb1.
  { subst st1. destruct (Obj.has _ _) eqn:Hhas; [done|].
    apply has_false in Hhas. unfold inBundle_of in *. simpl.
    rewrite get_set. case_bool_decide; simplify_eq; [|done].
    by rewrite Hhas in Hb. }
  set (acc := fold_left _ (default [] _) _).
  assert (inBundle_of key (fst acc) = Some b) as Hb2.
  { subst acc.
    apply (fold_left_invariant (fun a => inBundle_of key (fst a) = Some b)); [done|].
    intros a x Ha. unfold transform_graph_step.
    repeat case_match; simpl; rewrite ?Hwarn; auto. }
  case_match; [done|].
  apply (fold_left_invariant (fun a => inBundle_of key (fst a) = Some b)); [done|].
  intros a x Ha. unfold transform_import_step.
  repeat case_match; simpl; rewrite ?Hwarn; auto.
Qed.

Lemma call_inBundle st c key b :
  inBundle_of key st = Some b -> inBundle_of key (call options st c) = Some b.
Proof.
  intros Hb. destruct c as [this [id importer|code chunk|code id|oo]];
    unfold call; simpl; [done|..].
  - destruct (mode options) eqn:Hmode.
    + unfold inBundle_of in *.
      destruct (Obj.get key (cssMap st)) as [r|] eqn:Hget; [|done].
      unfold renderChunk.
      erewrite renderChunk_server_fold; [|done|by repeat case_match].
      simpl in *. by rewrite Hb.
    + unfold inBundle_of, renderChunk in *.
      match goal with
      | |- context [fold_left ?f ?l ?a0] =>
          assert (cssMap (fold_left f l a0) = cssMap st) as ->; [|done]
      end.
      apply (fold_left_invariant (fun a => cssMap a = cssMap st));
        [by repeat case_match|].
      intros a x <-. unfold renderChunk_step. by rewrite Hmode.
  - unfold transform. destruct (mode options); simpl.
    + unfold transform_server. repeat case_match; auto using transform_inline_inBundle.
    + pose proof (transform_client_frame_eq options this code id st) as H'.
      unfold inBundle_of in *. injection H' as -> _ _ _ _. done.
  - pose proof (generateBundle_frame_eq options this oo st) as H'.
    unfold inBundle_of in *. injection H' as -> _ _ _ _ _. done.
Qed.

End InBundle.

(** C7: in the server pass, [renderChunk] assigns [inBundle] of a style
    record only while it is still undefined, at the first module of the
    chunk whose path relative to [srcDir] is the key of the record: [true]
    if that module is a Vue module with a non-empty relative path or the
    chunk is the entry chunk, [false] otherwise; the recorded files stay as
    they are; and once [inBundle] holds a value, no later hook call of the
    build changes it. *)
Theorem inBundle_is_latched {ext : Externals} (options : SSRStylesPluginOptions)
    (code : string) (chunk : RenderedChunk) (st : PluginState)
    (key : string) (r : StyleRecord) :
  mode options = ModeServer ->
  Obj.get key (cssMap st) = Some r ->
  Obj.get key (cssMap (renderChunk options code chunk st))
  = Some {| files := files r;
            inBundle :=
              match inBundle r with
              | Some b => Some b
              | None =>
                  match List.find
                          (fun m => bool_decide (relativeToSrcDir options m = key))
                          (chunk_module_ids chunk) with
                  | Some m =>
                      Some ((isVue m && Str.nonempty key) || isEntry options chunk)
                  | None => None
                  end
              end |}
  /\ forall b calls,
       inBundle r = Some b ->
       inBundle_of key (run options calls st) = Some b.
Proof.
  intros Hmode Hget. split.
  - unfold renderChunk. apply renderChunk_server_fold; [done|].
    by repeat case_match.
  - intros b calls Hb. unfold run.
    apply (fold_left_invariant (fun a => inBundle_of key a = Some b)).
    + unfold inBundle_of. by rewrite Hget.
    + intros a c Ha. by apply call_inBundle.
Qed.

Lemma inBundle_is_latched_witness :
  Obj.get "a.vue" (cssMap (renderChunk Demo.inline_options "" Demo.a_chunk Demo.a_transformed))
  = Some {| files := [0; 1]; inBundle := Some true |} /\
  inBundle_of "a.vue"
    (run Demo.inline_options
       [(Demo.host, CallRenderChunk "" Demo.entry_chunk);
        (Demo.host, CallTransform Demo.one_import "/src/a.vue")]
       Demo.a_rendered) = Some true.
Proof.
  split.
  - destruct (inBundle_is_latched Demo.inline_options "" Demo.a_chunk Demo.a_transformed
                "a.vue" {| files := [0; 1]; inBundle := None |} eq_refl eq_refl)
      as [H _].
    rewrite H. reflexivity.
  - destruct (inBundle_is_latched Demo.inline_options "" Demo.a_chunk Demo.a_rendered
                "a.vue" {| files := [0; 1]; inBundle := Some true |} eq_refl eq_refl)
      as [_ H].
    apply H. reflexivity.
Defined.

(** ** Chunk walker: what the server pass does to the graph *)

(** C8 (as the spec states it, refuted): rendering the entry chunk in
    server mode adds the entry module to a graph that did not have it. *)
Lemma server_renderChunk_adds_entry :
  clientCSSMap (SSRStylesPlugin Demo.inline_options ∅ ∅) = ∅ /\
  clientCSSMap (renderChunk Demo.inline_options "" Demo.entry_chunk
                  (SSRStylesPlugin Demo.inline_options ∅ ∅))
  = {[ "/src/entry.ts" := [] ]} /\
  clientCSSMap (renderChunk Demo.inline_options "" Demo.entry_chunk
                  (SSRStylesPlugin Demo.inline_options ∅ ∅))
  <> clientCSSMap (SSRStylesPlugin Demo.inline_options ∅ ∅).
Proof.
  split; [reflexivity|]. split; [vm_compute; reflexivity|].
  intros H. apply (f_equal (fun m => m !! "/src/entry.ts")) in H.
  vm_compute in H. discriminate.
Qed.

(** C8 (amended): in server mode [renderChunk] leaves the graph as it is
    unless the facade module of the chunk is the entry, in which case the
    entry gets an empty set if it had none; every key of the graph keeps its
    set; and the server-pass [transform] and [generateBundle] do not change
    the graph. *)
Theorem server_pass_graph_frame {ext : Externals} (options : SSRStylesPluginOptions)
    (st : PluginState) :
  mode options = ModeServer ->
  (forall code chunk,
     clientCSSMap (renderChunk options code chunk st)
     = if isEntry options chunk
       then ensure_set (entry options) (clientCSSMap st)
       else clientCSSMap st) /\
  (forall code chunk k v,
     clientCSSMap st !! k = Some v ->
     clientCSSMap (renderChunk options code chunk st) !! k = Some v) /\
  (forall this code id,
     clientCSSMap (fst (transform options this code id st)) = clientCSSMap st) /\
  (forall this outputOptions,
     clientCSSMap (generateBundle options this outputOptions st) = clientCSSMap st).
Proof.
  intros Hmode.
  assert (Hrender : forall code chunk,
     clientCSSMap (renderChunk options code chunk st)
     = if isEntry options chunk
       then ensure_set (entry options) (clientCSSMap st)
       else clientCSSMap st).
  { intros code chunk. unfold renderChunk.
    set (st1 := match facadeModuleId chunk with Some _ => _ | None => _ end).
    assert (clientCSSMap st1
            = if isEntry options chunk
              then ensure_set (entry options) (clientCSSMap st)
              else clientCSSMap st) as <-.
    { subst st1. unfold isEntry.
      destruct (facadeModuleId chunk) as [f|]; [|done].
      case_bool_decide; by simplify_eq. }
    apply (fold_left_invariant (fun a => clientCSSMap a = clientCSSMap st1)); [done|].
    intros a x <-. unfold renderChunk_step. by rewrite Hmode. }
  repeat split.
  - done.
  - intros code chunk k v Hk. rewrite Hrender.
    destruct (isEntry options chunk); [|done].
    unfold ensure_set. destruct (clientCSSMap st !! entry options) eqn:He; [done|].
    rewrite lookup_insert_ne; [done|]. intros <-. congruence.
  - intros this code id. unfold transform. rewrite Hmode. simpl.
    pose proof (transform_server_frame_eq options this code id st) as H'.
    by injection H'.
  - intros this oo.
    pose proof (generateBundle_frame_eq options this oo st) as H'.
    by injection H'.
Qed.

Lemma server_pass_graph_frame_witness :
  clientCSSMap (renderChunk Demo.inline_options "" Demo.a_chunk Demo.a_transformed)
  = Demo.graph_a /\
  clientCSSMap (fst (transform Demo.inline_options Demo.host Demo.two_imports
                       "/src/a.vue" Demo.a_fresh)) = Demo.graph_a.
Proof.
  split.
  - destruct (server_pass_graph_frame Demo.inline_options Demo.a_transformed eq_refl)
      as (H & _).
    rewrite H. vm_compute. reflexivity.
  - destruct (server_pass_graph_frame Demo.inline_options Demo.a_fresh eq_refl)
      as (_ & _ & H & _).
    rewrite H. reflexivity.
Defined.

(** ** Bundle emitter *)

Section Bundle.
Context {ext : Externals}.
Variables (this : PluginContext) (outputOptions : OutputOptions).

Lemma skipped_false (r : StyleRecord) :
  skipped r = false <-> files r <> [] /\ inBundle r = Some true.
Proof.
  unfold skipped.
  rewrite orb_false_iff, negb_false_iff, bool_decide_eq_false, bool_decide_eq_true.
  by rewrite length_zero_iff_nil.
Qed.

Lemma generateBundle_step_eq em st e :
  generateBundle_step this outputOptions (em, st) e
  = if skipped (snd e) then (em, st)
    else (Obj.set (fst e) (length (emittedFiles st)) em,
          snd (emitFile (aggregate_asset this outputOptions e) st)).
Proof. unfold generateBundle_step, emitFile. by destruct (skipped _). Qed.

Lemma generateBundle_fold_files css em st :
  emittedFiles (snd (fold_left (generateBundle_step this outputOptions) css (em, st)))
  = emittedFiles st
    ++ map (aggregate_asset this outputOptions)
         (List.filter (fun e => negb (skipped (snd e))) css).
Proof.
  revert em st. induction css as [|e css IH]; intros em st; simpl.
  - by rewrite app_nil_r.
  - unfold generateBundle_step at 2. destruct (skipped (snd e)); simpl.
    + apply IH.
    + rewrite IH. simpl. by rewrite <- app_assoc.
Qed.

Lemma generateBundle_fold_keys css em st k :
  k ∈ Obj.keys (fst (fold_left (generateBundle_step this outputOptions) css (em, st)))
  <-> k ∈ Obj.keys em \/ exists r, (k, r) ∈ css /\ skipped r = false.
Proof.
  revert em st. induction css as [|[file r0] css IH]; intros em st; simpl.
  - split; [by left|]. intros [?|(r & []%elem_of_nil & _)]; done.
  - unfold generateBundle_step at 2. simpl.
    destruct (skipped r0) eqn:Hskip; simpl; rewrite IH.
    + split; (intros [?|(r & Hin & Hr)]; [by left|right; exists r]).
      * split; [by right|done].
      * apply elem_of_cons in Hin as [?|?]; simplify_eq; [congruence|done].
    + rewrite keys_set. split.
      * intros [[->|?]|(r & Hin & Hr)]; [right; exists r0|by left|right; exists r].
        -- split; [by left|done].
        -- split; [by right|done].
      * intros [?|(r & Hin & Hr)]; [by left; right|].
        apply elem_of_cons in Hin as [?|?]; simplify_eq; [by left; left|].
        right. by exists r.
Qed.

Lemma generateBundle_fold_refs css em st k ref :
  Obj.get k (fst (fold_left (generateBundle_step this outputOptions) css (em, st)))
  = Some ref ->
  Obj.get k em = Some ref \/
  exists r, (k, r) ∈ css /\ skipped r = false /\
    emittedFiles (snd (fold_left (generateBundle_step this outputOptions) css (em, st)))
      !! ref = Some (aggregate_asset this outputOptions (k, r)).
Proof.
  revert em st. induction css as [|[file r0] css IH]; intros em st; simpl.
  - by left.
  - rewrite generateBundle_step_eq. simpl.
    destruct (skipped r0) eqn:Hskip; simpl; intros Hget.
    + apply IH in Hget as [?|(r & Hin & Hr & Hlog)]; [by left|].
      right. exists r. split; [by right|done].
    + apply IH in Hget as [Hget|(r & Hin & Hr & Hlog)].
      * rewrite get_set in Hget. case_bool_decide; simplify_eq; [|by left].
        right. exists r0. split; [by left|]. split; [done|].
        rewrite generateBundle_fold_files. simpl.
        rewrite <- app_assoc. rewrite lookup_app_r by done.
        by rewrite Nat.sub_diag.
      * right. exists r. split; [by right|done].
Qed.

Lemma generateBundle_fold_NoDup css em st :
  NoDup (Obj.keys em) ->
  NoDup (Obj.keys (fst (fold_left (generateBundle_step this outputOptions) css (em, st)))).
Proof.
  revert em st. induction css as [|e css IH]; intros em st Hnd; simpl; [done|].
  rewrite generateBundle_step_eq. destruct (skipped (snd e)); apply IH; [done|].
  by apply keys_set_NoDup.
Qed.

Lemma skipped_negb (r : StyleRecord) :
  negb (skipped r)
  = negb (bool_decide (files r = [])) && bool_decide (inBundle r = Some true).
Proof.
  unfold skipped. rewrite negb_orb, negb_involutive. f_equal. f_equal.
  apply bool_decide_ext, length_zero_iff_nil.
Qed.

(** The keys of the mapping written into the directory module. *)
Lemma directory_keys st id :
  id ∈ map fst (directory_entries this (fst (generateBundle_emitted this outputOptions st)))
  <-> exists r, (id, r) ∈ cssMap st /\ files r <> [] /\ inBundle r = Some true.
Proof.
  assert (id ∈ map fst (directory_entries this
                          (fst (generateBundle_emitted this outputOptions st)))
          <-> id ∈ Obj.keys (fst (generateBundle_emitted this outputOptions st))) as ->.
  { unfold directory_entries, Obj.keys. rewrite !list_elem_of_In, !in_map_iff. split.
    - intros ([k loader] & Hid & ([k' ref] & Heq & Hin)%in_map_iff).
      injection Heq as Hk Hl. exists (k', ref). split; [simpl in *; congruence|].
      by apply list_elem_of_In, elem_of_entries, list_elem_of_In.
    - intros ([k ref] & <- & Hin). exists (k, loader_source this ref). split; [done|].
      apply in_map_iff. exists (k, ref). split; [done|].
      by apply list_elem_of_In, elem_of_entries, list_elem_of_In. }
  unfold generateBundle_emitted.
  rewrite (generateBundle_fold_keys (Obj.entries (cssMap st)) [] st id). split.
  - intros [Hnil|(r & Hin & Hr)]; [by apply elem_of_nil in Hnil|].
    exists r. rewrite <- skipped_false. split; [|done]. by apply elem_of_entries.
  - intros (r & Hin & Hr). right. exists r. rewrite skipped_false.
    split; [|done]. by apply elem_of_entries.
Qed.

(** Each entry of that mapping is the loader of the aggregate emitted for a
    record with files that is in the bundle. *)
Lemma directory_entry st id loader :
  (id, loader) ∈ directory_entries this (fst (generateBundle_emitted this outputOptions st)) ->
  exists ref r,
    (id, r) ∈ cssMap st /\ files r <> [] /\ inBundle r = Some true /\
    loader = loader_source this ref /\
    emittedFiles (snd (generateBundle_emitted this outputOptions st)) !! ref
    = Some (aggregate_asset this outputOptions (id, r)).
Proof.
  unfold directory_entries. rewrite list_elem_of_In, in_map_iff.
  intros ([k ref] & [= <- <-] & Hin).
  apply list_elem_of_In in Hin. apply (proj1 (elem_of_entries _ _)) in Hin.
  assert (Obj.get k (fst (generateBundle_emitted this outputOptions st)) = Some ref)
    as Hget.
  { apply elem_of_get; [|done]. unfold generateBundle_emitted.
    apply generateBundle_fold_NoDup. apply NoDup_nil_2. }
  unfold generateBundle_emitted in *.
  destruct (generateBundle_fold_refs (Obj.entries (cssMap st)) [] st k ref Hget)
    as [Hnil|(r & Hr & Hskip & Hlog)]; [done|].
  exists ref, r. apply skipped_false in Hskip as [? ?].
  repeat split; try done. by apply elem_of_entries.
Qed.

End Bundle.

(** C2: in server mode [generateBundle] gives a module id an entry in the
    mapping of the directory module exactly when the id has a style record
    with at least one file and [inBundle] equal to [true]; the files it
    emits are one aggregate module per such record, in the order in which
    [Object.entries] visits the records, followed by the directory module
    [styles.mjs], whose source is the [interopDefault] helper and the export
    of that mapping; each entry of the mapping is the loader
    [() => import('./<file>').then(interopDefault)] of the aggregate emitted
    for such a record, and the source of that aggregate imports the chunks
    of the record in recording order and exports them as a list; and no
    warning is issued. *)
Theorem generateBundle_emits_exactly_bundled {ext : Externals}
    (options : SSRStylesPluginOptions) (this : PluginContext)
    (outputOptions : OutputOptions) (st : PluginState) :
  mode options = ModeServer ->
  (forall id,
     id ∈ map fst (directory_entries this
                     (fst (generateBundle_emitted this outputOptions st)))
     <-> exists r, (id, r) ∈ cssMap st /\ files r <> [] /\ inBundle r = Some true) /\
  emittedFiles (generateBundle options this outputOptions st)
  = emittedFiles st
    ++ map (aggregate_asset this outputOptions)
         (List.filter
            (fun e => negb (bool_decide (files (snd e) = []))
                      && bool_decide (inBundle (snd e) = Some true))
            (Obj.entries (cssMap st)))
    ++ [EmittedAsset None (Some "styles.mjs") (Some "styles.mjs")
          (String.concat nl
             ["const interopDefault = r => r.default || r || []";
              "export default " +:+
                genObjectFromRawEntries
                  (directory_entries this
                     (fst (generateBundle_emitted this outputOptions st)))])] /\
  (forall id loader,
     (id, loader) ∈ directory_entries this
                      (fst (generateBundle_emitted this outputOptions st)) ->
     exists ref r,
       (id, r) ∈ cssMap st /\ files r <> [] /\ inBundle r = Some true /\
       loader = "() => import('./" +:+ getFileName this ref +:+ "').then(interopDefault)" /\
       emittedFiles (generateBundle options this outputOptions st) !! ref
       = Some (EmittedAsset (Some (tmpl (filename id) +:+ "-styles.mjs")) None None
                 (String.concat nl
                    (imap (fun i css =>
                             "import style_" +:+ pretty i +:+ " from './"
                             +:+ relative
                                   (dirname (asset_base outputOptions (filename id)))
                                   (getFileName this css)
                             +:+ "';") (files r)
                     ++ ["export default ["
                         +:+ String.concat ", "
                               (imap (fun i _ => "style_" +:+ pretty i) (files r))
                         +:+ "]"])))) /\
  warnings (generateBundle options this outputOptions st) = warnings st.
Proof.
  intros Hmode.
  assert (Hfiles :
    emittedFiles (generateBundle options this outputOptions st)
    = emittedFiles (snd (generateBundle_emitted this outputOptions st))
      ++ [EmittedAsset None (Some "styles.mjs") (Some "styles.mjs")
            (directory_source this (fst (generateBundle_emitted this outputOptions st)))]).
  { unfold generateBundle. rewrite Hmode.
    by destruct (generateBundle_emitted this outputOptions st). }
  split; [|split; [|split]].
  - apply directory_keys.
  - rewrite Hfiles. unfold generateBundle_emitted at 1.
    rewrite generateBundle_fold_files, <- app_assoc. do 3 f_equal.
    apply filter_ext. intros e. apply skipped_negb.
  - intros id loader Hin.
    destruct (directory_entry this outputOptions st id loader Hin)
      as (ref & r & Hr & Hne & Hb & -> & Hlog).
    exists ref, r. repeat split; try done.
    rewrite Hfiles. by apply lookup_app_l_Some.
  - pose proof (generateBundle_frame_eq options this outputOptions st) as H'.
    by injection H'.
Qed.

Lemma generateBundle_emits_exactly_bundled_witness :
  "a.vue" ∈ map fst (directory_entries Demo.host
                       (fst (generateBundle_emitted Demo.host Demo.outputOptions
                               Demo.a_rendered))) /\
  emittedFiles (generateBundle Demo.inline_options Demo.host Demo.outputOptions
                  Demo.a_rendered)
  = [EmittedChunk "a-styles-1.mjs" "/src/a.css?inline&used";
     EmittedChunk "a-styles-2.mjs" "/src/a.css?inline&used";
     EmittedAsset (Some "a-styles.mjs") None None
       (String.concat nl
          ["import style_0 from './chunk-0.mjs';";
           "import style_1 from './chunk-1.mjs';";
           "export default [style_0, style_1]"]);
     EmittedAsset None (Some "styles.mjs") (Some "styles.mjs")
       (String.concat nl
          ["const interopDefault = r => r.default || r || []";
           "export default " +:+
             genObjectFromRawEntries
               [("a.vue", "() => import('./chunk-2.mjs').then(interopDefault)")]])] /\
  ~ "a.vue" ∈ map fst (directory_entries Demo.host
                         (fst (generateBundle_emitted Demo.host Demo.outputOptions
                                 Demo.a_bare_rendered))) /\
  warnings (generateBundle Demo.inline_options Demo.host Demo.outputOptions
              Demo.a_rendered) = [] /\
  emittedFiles (generateBundle Demo.inline_options Demo.host Demo.outputOptions
                  Demo.indexed)
  = [EmittedChunk "b-styles-1.mjs" "/src/a.css?inline&used";
     EmittedChunk "7-styles-1.mjs" "/src/b.css?inline&used";
     EmittedAsset (Some "7-styles.mjs") None None
       (String.concat nl
          ["import style_0 from './chunk-1.mjs';"; "export default [style_0]"]);
     EmittedAsset (Some "b-styles.mjs") None None
       (String.concat nl
          ["import style_0 from './chunk-0.mjs';"; "export default [style_0]"]);
     EmittedAsset None (Some "styles.mjs") (Some "styles.mjs")
       (String.concat nl
          ["const interopDefault = r => r.default || r || []";
           "export default " +:+
             genObjectFromRawEntries
               [("7", "() => import('./chunk-2.mjs').then(interopDefault)");
                ("b.vue", "() => import('./chunk-3.mjs').then(interopDefault)")]])].
Proof.
  destruct (generateBundle_emits_exactly_bundled Demo.inline_options Demo.host
              Demo.outputOptions Demo.a_rendered eq_refl) as (Hkeys & Hlog & _ & Hwarn).
  destruct (generateBundle_emits_exactly_bundled Demo.inline_options Demo.host
              Demo.outputOptions Demo.a_bare_rendered eq_refl) as (Hbare & _).
  destruct (generateBundle_emits_exactly_bundled Demo.inline_options Demo.host
              Demo.outputOptions Demo.indexed eq_refl) as (_ & Hindexed & _).
  split; [|split; [|split; [|split]]]; [| | | |by rewrite Hindexed].
  - apply Hkeys. exists {| files := [0; 1]; inBundle := Some true |}.
    split; [|done].
    assert (cssMap Demo.a_rendered
            = [("a.vue", {| files := [0; 1]; inBundle := Some true |})]) as ->
      by (vm_compute; reflexivity).
    by apply list_elem_of_singleton.
  - rewrite Hlog. vm_compute. reflexivity.
  - intros (r & Hin & Hne & _)%Hbare.
    assert (cssMap Demo.a_bare_rendered
            = [("a.vue", {| files := []; inBundle := Some true |})]) as Hcss
      by (vm_compute; reflexivity).
    rewrite Hcss in Hin. apply list_elem_of_singleton in Hin. by simplify_eq.
  - rewrite Hwarn. vm_compute. reflexivity.
Defined.

(** ** Directory loaders *)

(** C9 (as the spec states it, refuted): a module with a style record
    without files, although in the bundle, has no loader in the directory:
    the mapping written into [styles.mjs] is empty, so looking the module up
    gives [undefined] and calling that throws, even if every loader were to
    yield the empty list. *)
Lemma no_loader_without_styles :
  Obj.get "a.vue" (cssMap Demo.a_bare_rendered)
  = Some {| files := []; inBundle := Some true |} /\
  directory_entries Demo.host
    (fst (generateBundle_emitted Demo.host Demo.outputOptions Demo.a_bare_rendered))
  = [] /\
  last (emittedFiles (generateBundle Demo.inline_options Demo.host Demo.outputOptions
                        Demo.a_bare_rendered))
  = Some (EmittedAsset None (Some "styles.mjs") (Some "styles.mjs")
            (String.concat nl
               ["const interopDefault = r => r.default || r || []";
                "export default " +:+ genObjectFromRawEntries []])) /\
  invoke_loader
    (directory_entries Demo.host
       (fst (generateBundle_emitted Demo.host Demo.outputOptions Demo.a_bare_rendered)))
    (fun _ => Returns (JsList [])) "a.vue" = Throws /\
  invoke_loader
    (directory_entries Demo.host
       (fst (generateBundle_emitted Demo.host Demo.outputOptions Demo.a_bare_rendered)))
    (fun _ => Returns (JsList [])) "a.vue" <> Returns (JsList []).
Proof.
  repeat split; try (vm_compute; reflexivity).
  vm_compute. discriminate.
Qed.

(** C9 (amended): in server mode the last file [generateBundle] emits is
    the directory module [styles.mjs], the [interopDefault] helper followed
    by the export of a mapping.  A module id whose style records have no
    files is no key of that mapping: looking it up gives [undefined], and
    calling that throws.  Every entry the mapping does have is the loader
    [() => import('./<file>').then(interopDefault)] of the aggregate emitted
    for a style record of that id with at least one file and [inBundle]
    true, and the source of that aggregate imports the chunks of the record
    in recording order as [style_0], [style_1], ... and exports the list of
    them by default.  [interopDefault] hands a default export that is a
    list back as it is, an empty one too, and throws on [undefined]. *)
Theorem loaders_exist_only_for_recorded_files {ext : Externals}
    (options : SSRStylesPluginOptions) (this : PluginContext)
    (outputOptions : OutputOptions) (st : PluginState) (id : string) :
  mode options = ModeServer ->
  last (emittedFiles (generateBundle options this outputOptions st))
  = Some (EmittedAsset None (Some "styles.mjs") (Some "styles.mjs")
            (String.concat nl
               ["const interopDefault = r => r.default || r || []";
                "export default " +:+
                  genObjectFromRawEntries
                    (directory_entries this
                       (fst (generateBundle_emitted this outputOptions st)))])) /\
  ((forall r, (id, r) ∈ cssMap st -> files r = []) ->
   ~ id ∈ map fst (directory_entries this
                     (fst (generateBundle_emitted this outputOptions st))) /\
   forall run,
     invoke_loader
       (directory_entries this (fst (generateBundle_emitted this outputOptions st)))
       run id = Throws) /\
  (forall loader,
     (id, loader) ∈ directory_entries this
                      (fst (generateBundle_emitted this outputOptions st)) ->
     exists ref r,
       (id, r) ∈ cssMap st /\ files r <> [] /\ inBundle r = Some true /\
       loader = "() => import('./" +:+ getFileName this ref +:+ "').then(interopDefault)" /\
       emittedFiles (generateBundle options this outputOptions st) !! ref
       = Some (EmittedAsset (Some (tmpl (filename id) +:+ "-styles.mjs")) None None
                 (String.concat nl
                    (imap (fun i css =>
                             "import style_" +:+ pretty i +:+ " from './"
                             +:+ relative
                                   (dirname (asset_base outputOptions (filename id)))
                                   (getFileName this css)
                             +:+ "';") (files r)
                     ++ ["export default ["
                         +:+ String.concat ", "
                               (imap (fun i _ => "style_" +:+ pretty i) (files r))
                         +:+ "]"])))) /\
  (forall items, interopDefault (JsNamespace (JsList items)) = Returns (JsList items)) /\
  interopDefault JsUndefined = Throws.
Proof.
  intros Hmode.
  assert (Hfiles :
    emittedFiles (generateBundle options this outputOptions st)
    = emittedFiles (snd (generateBundle_emitted this outputOptions st))
      ++ [EmittedAsset None (Some "styles.mjs") (Some "styles.mjs")
            (directory_source this (fst (generateBundle_emitted this outputOptions st)))]).
  { unfold generateBundle. rewrite Hmode.
    by destruct (generateBundle_emitted this outputOptions st). }
  split; [|split; [|split; [|split]]].
  - rewrite Hfiles. apply last_snoc.
  - intros Hnone.
    assert (~ id ∈ map fst (directory_entries this
                              (fst (generateBundle_emitted this outputOptions st))))
      as Hkey.
    { intros (r & Hin & Hne & _)%directory_keys. by apply Hne, Hnone. }
    split; [done|]. intros run. unfold invoke_loader.
    destruct (Obj.get id _) as [loader|] eqn:Hget; [|done].
    exfalso. apply Hkey. apply get_is_Some. by eexists.
  - intros loader Hin.
    destruct (directory_entry this outputOptions st id loader Hin)
      as (ref & r & Hr & Hne & Hb & -> & Hlog).
    exists ref, r. repeat split; try done.
    rewrite Hfiles. by apply lookup_app_l_Some.
  - done.
  - done.
Qed.

Lemma loaders_exist_only_for_recorded_files_witness :
  invoke_loader
    (directory_entries Demo.host
       (fst (generateBundle_emitted Demo.host Demo.outputOptions Demo.a_bare_rendered)))
    (fun _ => Returns (JsList [])) "a.vue" = Throws /\
  exists ref r,
    ("a.vue", r) ∈ cssMap Demo.a_rendered /\ files r <> [] /\
    inBundle r = Some true /\
    "() => import('./chunk-2.mjs').then(interopDefault)"
    = "() => import('./" +:+ getFileName Demo.host ref +:+ "').then(interopDefault)".
Proof.
  destruct (loaders_exist_only_for_recorded_files Demo.inline_options Demo.host
              Demo.outputOptions Demo.a_bare_rendered "a.vue" eq_refl)
    as (_ & Hnone & _).
  destruct (loaders_exist_only_for_recorded_files Demo.inline_options Demo.host
              Demo.outputOptions Demo.a_rendered "a.vue" eq_refl)
    as (_ & _ & Hentry & _).
  split.
  - apply Hnone. intros r Hin.
    assert (cssMap Demo.a_bare_rendered
            = [("a.vue", {| files := []; inBundle := Some true |})]) as Hcss
      by (vm_compute; reflexivity).
    rewrite Hcss in Hin. apply list_elem_of_singleton in Hin. by simplify_eq.
  - destruct (Hentry "() => import('./chunk-2.mjs').then(interopDefault)")
      as (ref & r & Hin & Hne & Hb & Hloader & _).
    + assert (directory_entries Demo.host
                (fst (generateBundle_emitted Demo.host Demo.outputOptions
                        Demo.a_rendered))
              = [("a.vue", "() => import('./chunk-2.mjs').then(interopDefault)")])
        as -> by (vm_compute; reflexivity).
      by apply list_elem_of_singleton.
    + by exists ref, r.
Defined.

(** ** Warnings *)

Section Warnings.
Context {ext : Externals}.
Variable options : SSRStylesPluginOptions.

Lemma warnOnce_inv key subject st : warn_inv st -> warn_inv (warnOnce key subject st).
Proof.
  intros [Hnodup Hcache]. unfold warnOnce. case_bool_decide as Hkey; [done|].
  split; simpl.
  - rewrite map_app. simpl. apply NoDup_app. split; [done|]. split.
    + intros k Hk Hk'%list_elem_of_singleton. subst k.
      apply list_elem_of_In, in_map_iff in Hk as (w & Hw & Hin).
      apply Hkey. rewrite <- Hw. by apply Hcache, list_elem_of_In.
    + apply NoDup_singleton.
  - intros w [Hw| ->%list_elem_of_singleton]%elem_of_app.
    + apply elem_of_union_l. by apply Hcache.
    + apply elem_of_union_r. by apply elem_of_singleton.
Qed.

Lemma emit_style_inv id relativeId file acc :
  warn_inv (fst acc) -> warn_inv (fst (emit_style options id relativeId file acc)).
Proof. by destruct acc. Qed.

Lemma transform_inline_inv this code id path st :
  warn_inv st -> warn_inv (transform_inline options this code id path st).
Proof.
  intros Hinv. unfold transform_inline.
  set (st1 := if Obj.has _ _ then st else _).
  assert (warn_inv st1) as Hinv1 by (subst st1; by case_match).
  set (acc := fold_left _ (default [] _) _).
  assert (warn_inv (fst acc)) as Hinv2.
  { subst acc. apply (fold_left_invariant (fun a => warn_inv (fst a))); [done|].
    intros a x Ha. unfold transform_graph_step.
    repeat case_match; simpl; auto using warnOnce_inv, emit_style_inv. }
  case_match; [done|].
  apply (fold_left_invariant (fun a => warn_inv (fst a))); [done|].
  intros a x Ha. unfold transform_import_step.
  repeat case_match; simpl; auto using warnOnce_inv, emit_style_inv.
Qed.

Lemma transform_client_inv this code id st :
  warn_inv st -> warn_inv (fst (transform_client options this code id st)).
Proof.
  intros Hinv. unfold transform_client.
  case_match; [|done]. case_match; [done|].
  match goal with
  | |- context [fold_left ?f ?l ?a0] =>
      pose proof (fold_left_invariant (fun p => warn_inv (fst p)) f l a0) as H'
  end.
  destruct (fold_left _ _ _) as [st' intro]. simpl in *.
  apply H'; [done|]. intros [a pre] x Ha. unfold transform_global_step.
  repeat case_match; simpl; auto using warnOnce_inv.
Qed.

Lemma call_inv st c : warn_inv st -> warn_inv (call options st c).
Proof.
  intros Hinv. destruct c as [this [id importer|code chunk|code id|oo]];
    unfold call; simpl; [done|..].
  - pose proof (renderChunk_frame_eq options code chunk st) as H'.
    unfold warn_inv in *. injection H' as _ -> _ _ _ ->. done.
  - unfold transform. destruct (mode options); simpl.
    + unfold transform_server. repeat case_match; auto using transform_inline_inv.
    + by apply transform_client_inv.
  - pose proof (generateBundle_frame_eq options this oo st) as H'.
    unfold warn_inv in *. injection H' as _ _ -> _ _ ->. done.
Qed.

End Warnings.

(** C6: whatever hooks the host calls on a plugin instance, in whatever
    order and with whatever answers of the resolver, no two of the warnings
    the instance has issued are about the same identifier. *)
Theorem one_warning_per_file {ext : Externals} (options : SSRStylesPluginOptions)
    (graph : gmap string (list string)) (chunks : gset string)
    (calls : list (PluginContext * HookCall)) :
  NoDup (map warn_key (warnings (run options calls (SSRStylesPlugin options graph chunks)))).
Proof.
  cut (warn_inv (run options calls (SSRStylesPlugin options graph chunks)));
    [by intros [? _]|].
  unfold run. apply (fold_left_invariant warn_inv).
  - split; simpl; [apply NoDup_nil_2|]. by intros w ?%elem_of_nil.
  - intros a c Ha. by apply call_inv.
Qed.

(** Two modules that refer to the same style sheet without inlineable
    variant: one warning in all. *)
Example one_warning_for_two_modules :
  warnings
    (run Demo.inline_options
       [(Demo.host, CallTransform "" "/src/a.vue");
        (Demo.host, CallTransform "" "/src/b.vue")]
       (SSRStylesPlugin Demo.inline_options Demo.graph_missing ∅))
  = [{| warn_key := "/src/missing.css";
        warn_message := cannot_extract "/src/missing.css" |}].
Proof. vm_compute. reflexivity. Qed.

(** ** Server-pass style resolver: the recorded files *)

(** C1 (the code at the failing input): [emittedIds] is tested but never
    added to, so a style sheet met twice in one [transform] is emitted and
    recorded twice: for two static imports of [./a.css], and for
    [/src/a.css] found in the graph and imported as well, the record of
    [a.vue] holds two references, both to chunks of
    [/src/a.css?inline&used]. *)
Lemma duplicate_style_is_recorded_twice :
  cssMap Demo.a_transformed = [("a.vue", {| files := [0; 1]; inBundle := None |})] /\
  emittedFiles Demo.a_transformed
  = [EmittedChunk "a-styles-1.mjs" "/src/a.css?inline&used";
     EmittedChunk "a-styles-2.mjs" "/src/a.css?inline&used"] /\
  cssMap Demo.a_graph_and_import
  = [("a.vue", {| files := [0; 1]; inBundle := None |})] /\
  emittedFiles Demo.a_graph_and_import
  = [EmittedChunk "a-styles-1.mjs" "/src/a.css?inline&used";
     EmittedChunk "a-styles-2.mjs" "/src/a.css?inline&used"].
Proof. repeat split; vm_compute; reflexivity. Qed.

(** ** Style records have distinct keys *)

Section Keys.
Context {ext : Externals}.
Variable options : SSRStylesPluginOptions.

Lemma transform_inline_keys this code id path st :
  distinct_keys st -> distinct_keys (transform_inline options this code id path st).
Proof.
  assert (Hemit : forall id0 rel file acc,
             distinct_keys (fst acc) ->
             distinct_keys (fst (emit_style options id0 rel file acc))).
  { intros id0 rel file [a n]. unfold distinct_keys. simpl. by rewrite keys_alter. }
  assert (Hwarn : forall k s a, distinct_keys a -> distinct_keys (warnOnce k s a)).
  { intros k s a. unfold warnOnce. by case_bool_decide. }
  intros Hst. unfold transform_inline.
  set (st1 := if Obj.has _ _ then st else _).
  assert (distinct_keys st1) as Hst1.
  { subst st1. destruct (Obj.has _ _) eqn:Hhas; [done|].
    apply has_false in Hhas. unfold distinct_keys. simpl.
    rewrite keys_set_fresh by done. apply NoDup_app. split; [done|]. split.
    - intros k Hk ->%list_elem_of_singleton.
      apply get_is_Some in Hk as [? Hk]. congruence.
    - apply NoDup_singleton. }
  set (acc := fold_left _ (default [] _) _).
  assert (distinct_keys (fst acc)) as Hacc.
  { subst acc. apply (fold_left_invariant (fun a => distinct_keys (fst a))); [done|].
    intros a x Ha. unfold transform_graph_step.
    repeat case_match; simpl; auto. }
  case_match; [done|].
  apply (fold_left_invariant (fun a => distinct_keys (fst a))); [done|].
  intros a x Ha. unfold transform_import_step.
  repeat case_match; simpl; auto.
Qed.

Lemma call_keys st c : distinct_keys st -> distinct_keys (call options st c).
Proof.
  intros Hst. destruct c as [this [id importer|code chunk|code id|oo]];
    unfold call; simpl; [done|..].
  - unfold renderChunk.
    apply (fold_left_invariant distinct_keys); [by repeat case_match|].
    intros a x Ha. unfold renderChunk_step, renderChunk_server, distinct_keys.
    repeat case_match; simpl; by rewrite ?keys_alter.
  - unfold transform. destruct (mode options); simpl.
    + unfold transform_server. repeat case_match; auto using transform_inline_keys.
    + pose proof (transform_client_frame_eq options this code id st) as H'.
      unfold distinct_keys in *. injection H' as -> _ _ _ _. done.
  - pose proof (generateBundle_frame_eq options this oo st) as H'.
    unfold distinct_keys in *. injection H' as -> _ _ _ _ _. done.
Qed.

(** In every state a build can reach, a module id has at most one style
    record. *)
Lemma cssMap_keys_distinct graph chunks calls :
  NoDup (Obj.keys (cssMap (run options calls (SSRStylesPlugin options graph chunks)))).
Proof.
  unfold run. apply (fold_left_invariant distinct_keys).
  - apply NoDup_nil_2.
  - intros a c Ha. by apply call_keys.
Qed.

End Keys.

(** * Further properties of the code *)

#[local] Set Warnings "-clear-no-such-hyp".

(** ** Query suffixes *)

Section Queries.

Lemma append_cons (c : ascii) (r s : string) : String c r +:+ s = String c (r +:+ s).
Proof. reflexivity. Qed.

Lemma append_empty (s : string) : "" +:+ s = s.
Proof. reflexivity. Qed.

Lemma all_chars_app (p : ascii -> bool) (a b : string) :
  Str.all_chars p (a +:+ b) = Str.all_chars p a && Str.all_chars p b.
Proof.
  induction a as [|c a IH]; [done|].
  rewrite append_cons. simpl. by rewrite IH, andb_assoc.
Qed.

Lemma strip_query_keeps_terminator (s : string) :
  Str.all_chars (fun c => negb (Str.line_terminator c)) s = false ->
  Str.all_chars (fun c => negb (Str.line_terminator c)) (Str.strip_query s) = false.
Proof.
  induction s as [|c r IH]; simpl; [done|].
  intros H. destruct (Str.is_char c "?" && Str.dot_plus_to_end r) eqn:Hm.
  - apply andb_true_iff in Hm as [Hc Hr].
    apply andb_true_iff in Hr as [_ Hr]. rewrite Hr, andb_true_r in H.
    unfold Str.is_char in Hc. apply bool_decide_eq_true in Hc. by subst c.
  - simpl. apply andb_false_iff in H as [H|H]; [by rewrite H|].
    by rewrite IH, andb_false_r.
Qed.

Lemma strip_query_no_match (s : string) :
  Str.dot_plus_to_end s = false -> Str.dot_plus_to_end (Str.strip_query s) = false.
Proof.
  unfold Str.dot_plus_to_end. intros [H|H]%andb_false_iff.
  - by destruct s.
  - by rewrite strip_query_keeps_terminator, andb_false_r.
Qed.

Lemma strip_query_idem (s : string) :
  Str.strip_query (Str.strip_query s) = Str.strip_query s.
Proof.
  induction s as [|c r IH]; simpl; [done|].
  destruct (Str.is_char c "?") eqn:Hc; simpl.
  - destruct (Str.dot_plus_to_end r) eqn:Hr; simpl; [done|].
    by rewrite Hc, strip_query_no_match, IH.
  - by rewrite Hc, IH.
Qed.

Lemma strip_query_append (x q : string) :
  Str.has_char Str.is_question x = false ->
  Str.dot_plus_to_end q = true ->
  Str.strip_query (x +:+ "?" +:+ q) = x.
Proof.
  intros Hx Hq. induction x as [|c r IH].
  - rewrite append_empty, append_cons, append_empty. simpl. by rewrite Hq.
  - simpl in Hx. apply orb_false_iff in Hx as [Hc Hr].
    rewrite append_cons. simpl. unfold Str.is_question in Hc. rewrite Hc. simpl.
    by rewrite IH.
Qed.

Lemma strip_query_bare_question (x : string) :
  Str.has_char Str.is_question x = false ->
  Str.strip_query (x +:+ "?") = x +:+ "?".
Proof.
  intros Hx. induction x as [|c r IH]; [done|].
  simpl in Hx. apply orb_false_iff in Hx as [Hc Hr].
  rewrite append_cons. simpl. unfold Str.is_question in Hc. rewrite Hc. simpl.
  by rewrite IH.
Qed.

End Queries.

(** X1: stripping the query suffix ([replace(/\?.+$/, '')], which gives the
    parent id of a style sub-module and the argument of the base name) is
    idempotent. *)
Theorem strip_query_idempotent (s : string) :
  Str.strip_query (Str.strip_query s) = Str.strip_query s.
Proof. apply strip_query_idem. Qed.

(** X2: for an identifier [x] without [?] and a query [q] that is not empty
    and has no line terminator, stripping [x?q] gives [x] back, and the
    helper names [x?q] as it names [x]; a bare trailing [?] is not a query
    suffix and stays. *)
Theorem query_suffix_round_trip (x q : string) :
  Str.has_char Str.is_question x = false ->
  Str.dot_plus_to_end q = true ->
  Str.strip_query (x +:+ "?" +:+ q) = x /\
  filename (x +:+ "?" +:+ q) = filename x /\
  Str.strip_query (x +:+ "?") = x +:+ "?".
Proof.
  intros Hx Hq. repeat split.
  - by apply strip_query_append.
  - unfold filename. by rewrite strip_query_append, strip_query_no_question.
  - by apply strip_query_bare_question.
Qed.

Lemma query_suffix_round_trip_witness :
  Str.strip_query ("/src/a.vue" +:+ "?" +:+ "vue&type=style&index=0&lang.css")
  = "/src/a.vue" /\
  filename ("/src/a.vue" +:+ "?" +:+ "vue&type=style&index=0&lang.css")
  = filename "/src/a.vue" /\
  Str.strip_query ("/src/a.vue" +:+ "?") = "/src/a.vue" +:+ "?".
Proof.
  apply (query_suffix_round_trip "/src/a.vue" "vue&type=style&index=0&lang.css");
    reflexivity.
Defined.

(** X3: a name the helper returns is never empty and never contains a path
    separator, whatever the identifier. *)
Theorem filename_is_a_plain_name (x y : string) :
  filename x = Some y ->
  y <> "" /\ Str.has_char Str.is_sep y = false.
Proof.
  intros Hx. split.
  - intros ->. unfold filename, _filename in Hx.
    destruct (Str.last_segment (Str.strip_query x)) as [|c r]; [done|].
    destruct (Str.has_char Str.is_dot r); done.
  - by eapply _filename_clean.
Qed.

Lemma filename_is_a_plain_name_witness :
  "index" <> "" /\ Str.has_char Str.is_sep "index" = false.
Proof.
  apply (filename_is_a_plain_name "/src/pages/index.vue?macro=true" "index").
  reflexivity.
Defined.

(** ** Bundle emitter: the chunks marked as inlined *)

Lemma elem_of_fold_union (l : list string) (s : gset string) (x : string) :
  x ∈ fold_left (fun s key => s ∪ {[key]}) l s <-> x ∈ s \/ x ∈ l.
Proof.
  revert s. induction l as [|k l IH]; intros s; simpl.
  - split; [by left|]. by intros [?|?%elem_of_nil].
  - rewrite IH, elem_of_union, elem_of_singleton, elem_of_cons. tauto.
Qed.

(** X4: in server mode [generateBundle] adds to [chunksWithInlinedCSS]
    exactly the module ids that got an aggregate: an id is in the set
    afterwards when it was there before or has a style record with files
    and [inBundle] true; nothing is ever removed.  In client mode the hook
    does nothing at all. *)
Theorem generateBundle_marks_inlined_chunks {ext : Externals}
    (options : SSRStylesPluginOptions) (this : PluginContext)
    (outputOptions : OutputOptions) (st : PluginState) :
  (mode options = ModeServer ->
   forall id,
     id ∈ chunksWithInlinedCSS (generateBundle options this outputOptions st)
     <-> id ∈ chunksWithInlinedCSS st \/
         exists r, (id, r) ∈ cssMap st /\ files r <> [] /\ inBundle r = Some true) /\
  (mode options = ModeClient ->
   generateBundle options this outputOptions st = st).
Proof.
  split; intros Hmode; unfold generateBundle; rewrite Hmode; [|done].
  intros id.
  pose proof (generateBundle_emitted_frame this outputOptions st) as Hframe.
  pose proof (generateBundle_fold_keys this outputOptions (Obj.entries (cssMap st))
                [] st id) as Hkeys.
  fold (generateBundle_emitted this outputOptions st) in Hkeys.
  assert (chunksWithInlinedCSS (snd (generateBundle_emitted this outputOptions st))
          = chunksWithInlinedCSS st) as Hsame.
  { unfold generateBundle_emitted.
    apply (fold_left_invariant
             (fun a => chunksWithInlinedCSS (snd a) = chunksWithInlinedCSS st)); [done|].
    intros [em a] e <-. rewrite generateBundle_step_eq. by destruct (skipped _). }
  destruct (generateBundle_emitted this outputOptions st) as [emitted st1].
  simpl in *. rewrite elem_of_fold_union, Hsame, Hkeys.
  apply or_iff_compat_l. split.
  - intros [[]%elem_of_nil|(r & Hin & Hr)]. exists r.
    apply (proj1 (elem_of_entries _ _)) in Hin. by rewrite <- skipped_false.
  - intros (r & Hin & Hr). right. exists r.
    apply (proj2 (elem_of_entries _ _)) in Hin. by rewrite skipped_false.
Qed.

Lemma generateBundle_marks_inlined_chunks_witness :
  "a.vue" ∈ chunksWithInlinedCSS
              (generateBundle Demo.inline_options Demo.host Demo.outputOptions
                 Demo.a_rendered) /\
  generateBundle (Demo.client_options InlineUndefined) Demo.host Demo.outputOptions
    Demo.a_rendered = Demo.a_rendered.
Proof.
  destruct (generateBundle_marks_inlined_chunks Demo.inline_options Demo.host
              Demo.outputOptions Demo.a_rendered) as [H _].
  destruct (generateBundle_marks_inlined_chunks (Demo.client_options InlineUndefined)
              Demo.host Demo.outputOptions Demo.a_rendered) as [_ H'].
  split; [|by apply H'].
  apply (H eq_refl). right.
  exists {| files := [0; 1]; inBundle := Some true |}.
  split; [|done].
  assert (cssMap Demo.a_rendered
          = [("a.vue", {| files := [0; 1]; inBundle := Some true |})]) as ->
    by (vm_compute; reflexivity).
  by apply list_elem_of_singleton.
Defined.

(** ** Chunk walker, client pass *)

Section ClientWalker.
Context {ext : Externals}.
Variable options : SSRStylesPluginOptions.

Lemma elem_of_set_add (x y : string) (s : list string) :
  y ∈ set_add x s <-> y = x \/ y ∈ s.
Proof.
  unfold set_add. case_bool_decide as Hx.
  - split; [by right|]. by intros [->|?].
  - rewrite elem_of_app, list_elem_of_singleton. tauto.
Qed.

Lemma set_add_prefix (x : string) (s : list string) : s `prefix_of` set_add x s.
Proof. unfold set_add. case_bool_decide; [done|]. by apply prefix_app_r. Qed.

Lemma graph_le_refl (m : gmap string (list string)) : graph_le m m.
Proof. intros k v Hk. by exists v. Qed.

Lemma graph_le_trans (m1 m2 m3 : gmap string (list string)) :
  graph_le m1 m2 -> graph_le m2 m3 -> graph_le m1 m3.
Proof.
  intros H12 H23 k v Hk.
  destruct (H12 k v Hk) as (v2 & Hk2 & Hp2).
  destruct (H23 k v2 Hk2) as (v3 & Hk3 & Hp3).
  exists v3. split; [done|]. by etrans.
Qed.

Lemma graph_le_elem (m m' : gmap string (list string)) (k x : string) :
  graph_le m m' -> x ∈ graph_set m k -> x ∈ graph_set m' k.
Proof.
  unfold graph_set. intros Hle Hx.
  destruct (m !! k) as [v|] eqn:Hk; [|by apply elem_of_nil in Hx].
  destruct (Hle k v Hk) as (v' & -> & [w ->]). simpl in *.
  apply elem_of_app. by left.
Qed.

Lemma graph_le_key (m m' : gmap string (list string)) (k : string) :
  graph_le m m' -> is_Some (m !! k) -> is_Some (m' !! k).
Proof. intros Hle [v Hk]. destruct (Hle k v Hk) as (v' & -> & _). by eexists. Qed.

Lemma ensure_set_le (k : string) (m : gmap string (list string)) :
  graph_le m (ensure_set k m).
Proof.
  unfold ensure_set. destruct (m !! k) eqn:Hk; [apply graph_le_refl|].
  intros k' v Hk'. exists v. split; [|done].
  rewrite lookup_insert_ne; [done|]. intros <-. congruence.
Qed.

Lemma ensure_set_key (k : string) (m : gmap string (list string)) :
  is_Some (ensure_set k m !! k).
Proof.
  unfold ensure_set. destruct (m !! k) eqn:Hk; [by rewrite Hk|].
  by rewrite lookup_insert_eq.
Qed.

Lemma ensure_set_sets (k k' : string) (m : gmap string (list string)) :
  graph_set (ensure_set k m) k' = graph_set m k'.
Proof.
  unfold ensure_set, graph_set. destruct (m !! k) eqn:Hk; [done|].
  destruct (decide (k = k')) as [<-|Hne].
  - by rewrite lookup_insert_eq, Hk.
  - by rewrite lookup_insert_ne.
Qed.

Lemma ensure_add_le (k x : string) (m : gmap string (list string)) :
  graph_le m (ensure_add k x m).
Proof.
  unfold ensure_add. intros k' v Hk'.
  destruct (decide (k = k')) as [<-|Hne].
  - rewrite lookup_insert_eq, Hk'. eexists. split; [done|]. apply set_add_prefix.
  - rewrite lookup_insert_ne by done. by exists v.
Qed.

Lemma ensure_add_sets (k x k' y : string) (m : gmap string (list string)) :
  y ∈ graph_set (ensure_add k x m) k'
  <-> y ∈ graph_set m k' \/ (k' = k /\ y = x).
Proof.
  unfold ensure_add, graph_set.
  destruct (decide (k = k')) as [<-|Hne].
  - rewrite lookup_insert_eq. simpl. rewrite elem_of_set_add. naive_solver.
  - rewrite lookup_insert_ne by done. naive_solver.
Qed.

Lemma renderChunk_client_le chunk moduleId (m : gmap string (list string)) :
  graph_le m (renderChunk_client options chunk moduleId m).
Proof.
  unfold renderChunk_client.
  repeat case_match;
    repeat (first [apply graph_le_refl | apply ensure_set_le
                  | eapply graph_le_trans; [|apply ensure_add_le]]).
Qed.

Lemma renderChunk_client_key chunk moduleId (m : gmap string (list string)) :
  is_Some (renderChunk_client options chunk moduleId m !! moduleId).
Proof.
  unfold renderChunk_client.
  pose proof (ensure_set_key moduleId m) as Hkey.
  repeat case_match; try done;
    repeat (eapply graph_le_key; [apply ensure_add_le|]); done.
Qed.

(** What one round of the client loop adds, and where. *)
Lemma renderChunk_client_sets chunk moduleId (m : gmap string (list string)) k y :
  y ∈ graph_set (renderChunk_client options chunk moduleId m) k
  <-> y ∈ graph_set m k \/
      (y = moduleId /\ isCSS moduleId = true /\
       ((isVue moduleId = true /\ (k = moduleId \/ k = Str.strip_query moduleId)) \/
        (isEntry options chunk = true /\ facadeModuleId chunk = Some k /\ k <> ""))).
Proof.
  assert (Hne : forall f : string, Str.nonempty f = true <-> f <> "").
  { intros [|c r]; simpl; split; done. }
  unfold renderChunk_client.
  destruct (isCSS moduleId) eqn:Hcss; [|rewrite ensure_set_sets; naive_solver].
  destruct (isVue moduleId) eqn:Hvue;
    (destruct (facadeModuleId chunk) as [f|] eqn:Hf;
     [destruct (isEntry options chunk) eqn:He; simpl;
      [destruct (Str.nonempty f) eqn:Hn|]|]);
    rewrite ?ensure_add_sets, ?ensure_set_sets.
  all: try (apply Hne in Hn).
  all: try (assert (f = "") by (destruct f; [done|discriminate Hn]); subst f).
  all: naive_solver.
Qed.

Lemma client_fold_graph chunk ids st :
  mode options = ModeClient ->
  clientCSSMap (fold_left (renderChunk_step options chunk) ids st)
  = fold_left (fun m moduleId => renderChunk_client options chunk moduleId m)
      ids (clientCSSMap st).
Proof.
  intros Hmode. revert st. induction ids as [|x ids IH]; intros st; simpl; [done|].
  rewrite IH. unfold renderChunk_step. by rewrite Hmode.
Qed.

Lemma client_graph code chunk st :
  mode options = ModeClient ->
  clientCSSMap (renderChunk options code chunk st)
  = fold_left (fun m moduleId => renderChunk_client options chunk moduleId m)
      (chunk_module_ids chunk)
      (if isEntry options chunk
       then ensure_set (entry options) (clientCSSMap st) else clientCSSMap st).
Proof.
  intros Hmode. unfold renderChunk. rewrite client_fold_graph by done.
  f_equal. unfold isEntry.
  destruct (facadeModuleId chunk) as [f|]; [|done].
  case_bool_decide; by simplify_eq.
Qed.

Lemma client_fold_le chunk ids (m : gmap string (list string)) :
  graph_le m
    (fold_left (fun m moduleId => renderChunk_client options chunk moduleId m) ids m).
Proof.
  revert m. induction ids as [|x ids IH]; intros m; simpl; [apply graph_le_refl|].
  eapply graph_le_trans; [apply renderChunk_client_le|apply IH].
Qed.

Lemma client_fold_sets chunk ids (m : gmap string (list string)) k y :
  y ∈ graph_set
        (fold_left (fun m moduleId => renderChunk_client options chunk moduleId m) ids m) k
  <-> y ∈ graph_set m k \/
      (y ∈ ids /\ isCSS y = true /\
       ((isVue y = true /\ (k = y \/ k = Str.strip_query y)) \/
        (isEntry options chunk = true /\ facadeModuleId chunk = Some k /\ k <> ""))).
Proof.
  revert m. induction ids as [|x ids IH]; intros m; simpl.
  - split; [by left|]. by intros [?|[?%elem_of_nil _]].
  - rewrite IH, renderChunk_client_sets, elem_of_cons. naive_solver.
Qed.

End ClientWalker.

(** X5: in the client pass, after [renderChunk] a module id [y] is in the
    set of a key [k] exactly when it was there before, or [y] is a style
    sheet among the module ids of the chunk and either [y] is a Vue module
    and [k] is [y] itself or [y] without its query suffix, or the chunk is
    the entry chunk and [k] is its non-empty facade module id.  So nothing
    but style sheets of the chunk is ever recorded, and nothing is removed. *)
Theorem client_walk_records_exactly {ext : Externals} (options : SSRStylesPluginOptions)
    (code : string) (chunk : RenderedChunk) (st : PluginState) (k y : string) :
  mode options = ModeClient ->
  y ∈ graph_set (clientCSSMap (renderChunk options code chunk st)) k
  <-> y ∈ graph_set (clientCSSMap st) k \/
      (y ∈ chunk_module_ids chunk /\ isCSS y = true /\
       ((isVue y = true /\ (k = y \/ k = Str.strip_query y)) \/
        (isEntry options chunk = true /\ facadeModuleId chunk = Some k /\ k <> ""))).
Proof.
  intros Hmode. rewrite client_graph, client_fold_sets by done.
  destruct (isEntry options chunk); by rewrite ?ensure_set_sets.
Qed.

(** X6: in the client pass, after [renderChunk] every module id of the
    chunk is a key of the graph, with or without styles, and so is the entry
    module when the chunk is the entry chunk. *)
Theorem client_walk_registers_modules {ext : Externals} (options : SSRStylesPluginOptions)
    (code : string) (chunk : RenderedChunk) (st : PluginState) :
  mode options = ModeClient ->
  (forall moduleId, moduleId ∈ chunk_module_ids chunk ->
     is_Some (clientCSSMap (renderChunk options code chunk st) !! moduleId)) /\
  (isEntry options chunk = true ->
   is_Some (clientCSSMap (renderChunk options code chunk st) !! entry options)).
Proof.
  intros Hmode. rewrite client_graph by done. split.
  - intros moduleId Hin.
    generalize (if isEntry options chunk
                then ensure_set (entry options) (clientCSSMap st) else clientCSSMap st).
    induction (chunk_module_ids chunk) as [|x ids IH]; intros m; simpl.
    + by apply elem_of_nil in Hin.
    + apply elem_of_cons in Hin as [->|Hin]; [|by apply IH].
      eapply graph_le_key; [apply client_fold_le|apply renderChunk_client_key].
  - intros ->. eapply graph_le_key; [apply client_fold_le|apply ensure_set_key].
Qed.

(** X7: [renderChunk] never removes anything from the graph, in either
    mode: every key stays, and its set afterwards continues its set before
    (same elements in the same order, new ones at the end). *)
Theorem renderChunk_graph_grows {ext : Externals} (options : SSRStylesPluginOptions)
    (code : string) (chunk : RenderedChunk) (st : PluginState) :
  graph_le (clientCSSMap st) (clientCSSMap (renderChunk options code chunk st)).
Proof.
  destruct (mode options) eqn:Hmode.
  - unfold renderChunk.
    set (st1 := match facadeModuleId chunk with Some _ => _ | None => _ end).
    assert (graph_le (clientCSSMap st) (clientCSSMap st1)) as Hle.
    { subst st1. repeat case_match; simpl;
        first [apply graph_le_refl | apply ensure_set_le]. }
    match goal with
    | |- context [fold_left ?f ?l ?a0] =>
        assert (clientCSSMap (fold_left f l a0) = clientCSSMap st1) as ->; [|done]
    end.
    apply (fold_left_invariant (fun a => clientCSSMap a = clientCSSMap st1)); [done|].
    intros a x <-. unfold renderChunk_step. by rewrite Hmode.
  - rewrite client_graph by done.
    eapply graph_le_trans; [|apply client_fold_le].
    destruct (isEntry options chunk); [apply ensure_set_le|apply graph_le_refl].
Qed.

Lemma client_walk_records_exactly_witness :
  "/src/a.css" ∈ graph_set
    (clientCSSMap (renderChunk Scenario.client "" Scenario.styled_entry_chunk
                     Scenario.client_fresh)) "/src/entry.ts".
Proof.
  apply (client_walk_records_exactly Scenario.client "" Scenario.styled_entry_chunk
           Scenario.client_fresh "/src/entry.ts" "/src/a.css" eq_refl).
  right. split; [|split; [reflexivity|]].
  - apply list_elem_of_In. vm_compute. tauto.
  - right. split; [reflexivity|]. split; [reflexivity|discriminate].
Defined.

Lemma client_walk_registers_modules_witness :
  is_Some (clientCSSMap (renderChunk Scenario.client "" Scenario.styled_entry_chunk
                           Scenario.client_fresh) !! "/src/a.css") /\
  is_Some (clientCSSMap (renderChunk Scenario.client "" Scenario.styled_entry_chunk
                           Scenario.client_fresh) !! "/src/entry.ts").
Proof.
  destruct (client_walk_registers_modules Scenario.client "" Scenario.styled_entry_chunk
              Scenario.client_fresh eq_refl) as [H1 H2].
  split; [apply H1|by apply H2].
  apply list_elem_of_In. vm_compute. tauto.
Defined.

(** ** Server-pass style resolver: what one transform emits and records *)

Lemma has_true' {V} (k : string) (o : list (string * V)) :
  Obj.has k o = true -> is_Some (Obj.get k o).
Proof. unfold Obj.has. by destruct (Obj.get k o). Qed.

Section ServerTransform.
Context {ext : Externals}.
Variable options : SSRStylesPluginOptions.

Lemma emit_style_view id rel file acc acc' :
  emission_view acc = emission_view acc' ->
  emission_view (emit_style options id rel file acc)
  = emission_view (emit_style options id rel file acc').
Proof.
  destruct acc as [a n], acc' as [a' n']. unfold emission_view. simpl.
  by intros [= -> -> ->].
Qed.

Lemma warnOnce_view key subject st n :
  emission_view (warnOnce key subject st, n) = emission_view (st, n).
Proof. unfold warnOnce. by case_bool_decide. Qed.

Lemma graph_step_view this id rel acc file :
  emission_view (transform_graph_step options this id rel ∅ acc file)
  = emission_view (match graph_target this id file with
                   | Some f => emit_style options id rel f acc
                   | None => acc
                   end).
Proof.
  unfold transform_graph_step, graph_target. destruct acc as [a n].
  rewrite (bool_decide_false (file ∈ (∅ : gset string))) by apply not_elem_of_empty.
  destruct (nullish (resolve this file None) _); simpl; [|apply warnOnce_view].
  destruct (nullish (resolve this (inline_used file) None) _); simpl;
    [done|apply warnOnce_view].
Qed.

Lemma import_step_view this id rel acc i :
  emission_view (transform_import_step options this id rel ∅ acc i)
  = emission_view (match import_target this id i with
                   | Some f => emit_style options id rel f acc
                   | None => acc
                   end).
Proof.
  unfold transform_import_step, import_target. destruct acc as [a n].
  destruct (negb _ && negb _); [done|].
  destruct (resolve this (specifier i) (Some id)) as [resolved|]; [|done].
  rewrite (bool_decide_false (rid resolved ∈ (∅ : gset string)))
    by apply not_elem_of_empty.
  destruct (resolve this (inline_used (rid resolved)) None); simpl;
    [done|apply warnOnce_view].
Qed.

Lemma emission_fold {X} (step : PluginState * nat -> X -> PluginState * nat)
    (target : X -> option string) id rel (l : list X) acc acc' :
  (forall a x, emission_view (step a x)
               = emission_view (match target x with
                                | Some f => emit_style options id rel f a
                                | None => a
                                end)) ->
  emission_view acc = emission_view acc' ->
  emission_view (fold_left step l acc)
  = emission_view (fold_left (fun a f => emit_style options id rel f a)
                     (omap target l) acc').
Proof.
  intros Hstep. revert acc acc'.
  induction l as [|x l IH]; intros acc acc' Hview; simpl; [done|].
  destruct (target x) as [f|] eqn:Hx; simpl; apply IH; rewrite Hstep, Hx; [|done].
  by apply emit_style_view.
Qed.

Lemma append_files_push (a : ReferenceId) (l : list ReferenceId) (r : StyleRecord) :
  append_files l (push_file a r) = append_files (a :: l) r.
Proof. unfold append_files, push_file. simpl. by rewrite <- app_assoc. Qed.

Lemma append_files_nil (r : StyleRecord) : append_files [] r = r.
Proof. destruct r. unfold append_files. simpl. by rewrite app_nil_r. Qed.

Lemma emit_style_step id rel file st n :
  snd (emit_style options id rel file (st, n)) = S n /\
  emittedFiles (fst (emit_style options id rel file (st, n)))
  = emittedFiles st ++ [style_chunk id (S n) file] /\
  cssMap (fst (emit_style options id rel file (st, n)))
  = Obj.alter (push_file (length (emittedFiles st))) rel (cssMap st).
Proof. done. Qed.

(** Emitting the style chunks of [fs] one after the other. *)
Lemma emit_all id rel (fs : list string) st n :
  emittedFiles (fst (fold_left (fun a f => emit_style options id rel f a) fs (st, n)))
  = emittedFiles st ++ style_chunks id n fs /\
  forall k,
    Obj.get k (cssMap (fst (fold_left (fun a f => emit_style options id rel f a)
                              fs (st, n))))
    = if bool_decide (rel = k)
      then append_files (seq (length (emittedFiles st)) (length fs))
             <$> Obj.get k (cssMap st)
      else Obj.get k (cssMap st).
Proof.
  revert st n. induction fs as [|f fs IH]; intros st n; cbn [fold_left length].
  - simpl. split; [by rewrite app_nil_r|]. intros k. case_bool_decide; [|done].
    destruct (Obj.get k (cssMap st)); simpl; by rewrite ?append_files_nil.
  - destruct (emit_style_step id rel f st n) as (Hn & Hlog1 & Hcss1).
    destruct (emit_style options id rel f (st, n)) as [st' n']. simpl in *. subst n'.
    destruct (IH st' (S n)) as [Hlog Hcss]. split.
    + rewrite Hlog, Hlog1, <- app_assoc. simpl.
      unfold style_chunks. simpl. rewrite Nat.add_0_r. do 2 f_equal.
      apply imap_ext. intros i x _. simpl. f_equal. lia.
    + intros k. rewrite Hcss, Hcss1, Hlog1, get_alter.
      rewrite length_app. simpl. rewrite Nat.add_1_r.
      case_bool_decide; [|done].
      destruct (Obj.get k (cssMap st)); simpl; [|done].
      by rewrite append_files_push.
Qed.

(** One server-pass transform, once past its guards. *)
Lemma transform_inline_spec this code id path st :
  emittedFiles (transform_inline options this code id path st)
  = emittedFiles st ++ style_chunks id 0 (inlined_files this code id path st) /\
  forall k,
    Obj.get k (cssMap (transform_inline options this code id path st))
    = if bool_decide (relativeToSrcDir options id = k)
      then Some (append_files
                   (seq (length (emittedFiles st))
                      (length (inlined_files this code id path st)))
                   (default empty_record (Obj.get k (cssMap st))))
      else Obj.get k (cssMap st).
Proof.
  set (rel := relativeToSrcDir options id).
  set (st1 := if Obj.has rel (cssMap st) then st
              else with_cssMap (Obj.set rel empty_record (cssMap st)) st).
  assert (Hview :
    emission_view (transform_inline options this code id path st, 0)
    = (cssMap (fst (fold_left (fun a f => emit_style options id rel f a)
                      (inlined_files this code id path st) (st1, 0))),
       emittedFiles (fst (fold_left (fun a f => emit_style options id rel f a)
                            (inlined_files this code id path st) (st1, 0))), 0)).
  { unfold transform_inline, inlined_files. fold rel. fold empty_record. fold st1.
    assert (clientCSSMap st1 = clientCSSMap st) as -> by (subst st1; by case_match).
    fold (graph_set (clientCSSMap st) id).
    rewrite fold_left_app.
    set (acc := fold_left (transform_graph_step _ _ _ _ _) _ _).
    set (acc' := fold_left _ (omap (graph_target this id) _) _).
    assert (emission_view acc = emission_view acc') as Hacc.
    { subst acc acc'. apply emission_fold; [|done].
      intros a x. apply graph_step_view. }
    destruct (SUPPORTED_FILES_RE path); simpl.
    - set (acc2 := fold_left (transform_import_step _ _ _ _ _) _ _).
      set (acc2' := fold_left _ (omap (import_target this id) _) _).
      assert (emission_view acc2 = emission_view acc2') as Hacc2.
      { subst acc2 acc2'. apply emission_fold; [|done].
        intros a x. apply import_step_view. }
      unfold emission_view in *. simpl. by injection Hacc2 as -> -> _.
    - unfold emission_view in *. simpl. by injection Hacc as -> -> _. }
  unfold emission_view in Hview. simpl in Hview. injection Hview as -> ->.
  destruct (emit_all id rel (inlined_files this code id path st) st1 0) as [Hlog Hcss].
  assert (emittedFiles st1 = emittedFiles st) as Hlog1 by (subst st1; by case_match).
  split; [by rewrite Hlog, Hlog1|].
  intros k. rewrite Hcss, Hlog1. subst st1.
  destruct (Obj.has rel (cssMap st)) eqn:Hhas; simpl.
  - apply has_true' in Hhas as [r Hr].
    case_bool_decide; simplify_eq; [|done]. by rewrite Hr.
  - apply has_false in Hhas. rewrite get_set.
    case_bool_decide; simplify_eq; [|done]. by rewrite Hhas.
Qed.

End ServerTransform.

(** X8: once past its guards, a server-pass transform of the module [id]
    emits one chunk for every style sheet occurrence it can inline (the
    files of the graph that pass both resolutions, then, for a supported
    source file, the style imports that resolve and have an inline variant),
    in this order, each for the [?inline&used] variant and named
    [<filename(id)>-styles-<k>.mjs] with [k] counting from 1; it emits
    nothing else and drops nothing emitted before. *)
Theorem transform_emits_numbered_chunks {ext : Externals}
    (options : SSRStylesPluginOptions) (this : PluginContext)
    (code id path : string) (st : PluginState) :
  emittedFiles (transform_inline options this code id path st)
  = emittedFiles st
    ++ imap (fun i file =>
               EmittedChunk
                 (tmpl (filename id) +:+ "-styles-" +:+ pretty (S i) +:+ ".mjs")
                 (file +:+ "?inline&used"))
         (inlined_files this code id path st).
Proof.
  destruct (transform_inline_spec options this code id path st) as [-> _].
  done.
Qed.

(** X9: once past its guards, a server-pass transform of [id] appends to
    the style record of [relativeToSrcDir(id)] exactly the references of the
    chunks it emits, in emission order, after the files recorded before (the
    record is created empty if missing, its [inBundle] is kept); every other
    style record stays as it is. *)
Theorem transform_appends_to_own_record {ext : Externals}
    (options : SSRStylesPluginOptions) (this : PluginContext)
    (code id path : string) (st : PluginState) (k : string) :
  Obj.get k (cssMap (transform_inline options this code id path st))
  = if bool_decide (relativeToSrcDir options id = k)
    then Some {| files := files (default empty_record (Obj.get k (cssMap st)))
                          ++ seq (length (emittedFiles st))
                               (length (inlined_files this code id path st));
                 inBundle := inBundle (default empty_record (Obj.get k (cssMap st))) |}
    else Obj.get k (cssMap st).
Proof.
  destruct (transform_inline_spec options this code id path st) as [_ ->].
  done.
Qed.

Section InBundleOnlyByRender.
Context {ext : Externals}.
Variable options : SSRStylesPluginOptions.

Lemma transform_inBundle_of this code id st key :
  inBundle_of key (fst (transform options this code id st)) = inBundle_of key st.
Proof.
  unfold transform. destruct (mode options); simpl.
  - unfold transform_server. repeat case_match; try done.
    unfold inBundle_of.
    destruct (transform_inline_spec options this code id
                (pathname (parseURL (decodeURIComponent (pathToFileURL_href id)))) st)
      as [_ ->].
    destruct (bool_decide (relativeToSrcDir options id = key)); [|done].
    by destruct (Obj.get key (cssMap st)).
  - pose proof (transform_client_frame_eq options this code id st) as H'.
    unfold inBundle_of. by injection H' as -> _ _ _ _.
Qed.

Lemma generateBundle_inBundle_of this oo st key :
  inBundle_of key (generateBundle options this oo st) = inBundle_of key st.
Proof.
  pose proof (generateBundle_frame_eq options this oo st) as H'.
  unfold inBundle_of. by injection H' as -> _ _ _ _ _.
Qed.

Lemma unrendered_run calls st :
  forallb (fun c => negb (is_renderChunk c)) calls = true ->
  (forall key, inBundle_of key st = None) ->
  forall key, inBundle_of key (run options calls st) = None.
Proof.
  unfold run. revert st. induction calls as [|[this c] calls IH]; intros st; simpl;
    [done|].
  intros [Hc Hcalls]%andb_true_iff Hst. apply IH; [done|].
  intros key. unfold call. simpl.
  destruct c; simpl in *; try done.
  - by rewrite transform_inBundle_of.
  - by rewrite generateBundle_inBundle_of.
Qed.

End InBundleOnlyByRender.

(** X10: [transform] never decides [inBundle]: in either mode and for
    every key, [inBundle] of the style record of that key is the same after
    the call as before, undefined for a record the call creates. *)
Theorem transform_leaves_inBundle {ext : Externals}
    (options : SSRStylesPluginOptions) (this : PluginContext)
    (code id : string) (st : PluginState) (key : string) :
  inBundle_of key (fst (transform options this code id st)) = inBundle_of key st.
Proof. apply transform_inBundle_of. Qed.

(** X11: a server build whose chunks were never rendered bundles no styles:
    after any sequence of [resolveId], [transform] and [generateBundle]
    calls on a new plugin instance, without any [renderChunk], the
    directory built by [generateBundle] has no entry, however many style
    chunks the transforms emitted. *)
Theorem nothing_bundled_without_renderChunk {ext : Externals}
    (options : SSRStylesPluginOptions) (graph : gmap string (list string))
    (chunks : gset string) (calls : list (PluginContext * HookCall))
    (this : PluginContext) (outputOptions : OutputOptions) :
  forallb (fun c => negb (is_renderChunk c)) calls = true ->
  fst (generateBundle_emitted this outputOptions
         (run options calls (SSRStylesPlugin options graph chunks))) = [].
Proof.
  intros Hcalls.
  set (st := run options calls (SSRStylesPlugin options graph chunks)).
  assert (Hnone : forall key, inBundle_of key st = None).
  { subst st. by apply unrendered_run. }
  assert (Hkeys : NoDup (Obj.keys (cssMap st))) by apply cssMap_keys_distinct.
  destruct (fst (generateBundle_emitted this outputOptions st)) as [|[k ref] em] eqn:Hem;
    [done|exfalso].
  assert (k ∈ Obj.keys (fst (generateBundle_emitted this outputOptions st))) as Hk.
  { rewrite Hem. simpl. by left. }
  unfold generateBundle_emitted in Hk.
  destruct (proj1 (generateBundle_fold_keys this outputOptions
                     (Obj.entries (cssMap st)) [] st k) Hk)
    as [Hk'|(r & Hin & Hr)]; [by apply elem_of_nil in Hk'|].
  apply (proj1 (elem_of_entries _ _)) in Hin.
  apply skipped_false in Hr as [_ Hr].
  specialize (Hnone k). unfold inBundle_of in Hnone.
  rewrite (elem_of_get k r (cssMap st)) in Hnone by done.
  simpl in Hnone. congruence.
Qed.

Lemma nothing_bundled_without_renderChunk_witness :
  fst (generateBundle_emitted Demo.host Demo.outputOptions
         (run Demo.inline_options
            [(Demo.host, CallTransform Demo.two_imports "/src/a.vue");
             (Demo.host, CallGenerateBundle Demo.outputOptions)]
            (SSRStylesPlugin Demo.inline_options Demo.graph_a ∅))) = [].
Proof.
  apply (nothing_bundled_without_renderChunk Demo.inline_options Demo.graph_a ∅
           [(Demo.host, CallTransform Demo.two_imports "/src/a.vue");
            (Demo.host, CallGenerateBundle Demo.outputOptions)]
           Demo.host Demo.outputOptions).
  reflexivity.
Defined.

(** ** Recorded references are emitted chunks *)

Section ValidRefs.
Context {ext : Externals}.
Variable options : SSRStylesPluginOptions.

Lemma valid_refs_extend st st' :
  valid_refs st ->
  (forall k r', Obj.get k (cssMap st') = Some r' ->
     exists r, Obj.get k (cssMap st) = Some r /\ files r' = files r) ->
  emittedFiles st `prefix_of` emittedFiles st' ->
  valid_refs st'.
Proof.
  intros Hst Hcss [l Hlog] k r' ref Hget Href.
  destruct (Hcss k r' Hget) as (r & Hr & Hfiles). rewrite Hfiles in Href.
  destruct (Hst k r ref Hr Href) as (name & file & Hlook).
  exists name, file. rewrite Hlog. by apply lookup_app_l_Some.
Qed.

Lemma transform_inline_valid this code id path st :
  valid_refs st -> valid_refs (transform_inline options this code id path st).
Proof.
  intros Hst k r' ref Hget Href.
  destruct (transform_inline_spec options this code id path st) as [Hlog Hcss].
  rewrite Hcss in Hget. rewrite Hlog.
  assert (Hold : forall r, Obj.get k (cssMap st) = Some r -> ref ∈ files r ->
     exists name file,
       (emittedFiles st ++ style_chunks id 0 (inlined_files this code id path st)) !! ref
       = Some (EmittedChunk name (inline_used file))).
  { intros r Hr Hin. destruct (Hst k r ref Hr Hin) as (name & file & Hlook).
    exists name, file. by apply lookup_app_l_Some. }
  case_bool_decide; [|by eapply Hold].
  simplify_eq. simpl in Href. apply elem_of_app in Href as [Href|Href].
  - destruct (Obj.get _ (cssMap st)) as [r|] eqn:Hr; [by eapply Hold|].
    by apply elem_of_nil in Href.
  - apply list_elem_of_In, in_seq in Href as [Hlo Hhi].
    destruct (lookup_lt_is_Some_2 (inlined_files this code id path st)
                (ref - length (emittedFiles st))) as [file Hfile]; [lia|].
    exists (tmpl (filename id) +:+ "-styles-"
            +:+ pretty (S (ref - length (emittedFiles st))) +:+ ".mjs"), file.
    rewrite lookup_app_r by lia. unfold style_chunks.
    rewrite list_lookup_imap, Hfile. done.
Qed.

Lemma renderChunk_valid code chunk st :
  valid_refs st -> valid_refs (renderChunk options code chunk st).
Proof.
  intros Hst. apply (valid_refs_extend st); [done| |].
  - unfold renderChunk.
    apply (fold_left_invariant
             (fun a => forall k r', Obj.get k (cssMap a) = Some r' ->
                         exists r, Obj.get k (cssMap st) = Some r /\ files r' = files r)).
    + intros k r' Hget. exists r'. split; [|done]. by repeat case_match.
    + intros a x Ha k r'. unfold renderChunk_step.
      destruct (mode options); simpl; [|apply Ha].
      rewrite renderChunk_server_get. case_bool_decide; [|apply Ha].
      destruct (Obj.get k (cssMap a)) as [r1|] eqn:Hr1; [|done].
      intros [= <-]. destruct (Ha k r1 Hr1) as (r & Hr & Hfiles).
      by exists r.
  - pose proof (renderChunk_frame_eq options code chunk st) as H'.
    by injection H' as _ _ _ _ -> _.
Qed.

Lemma generateBundle_valid this oo st :
  valid_refs st -> valid_refs (generateBundle options this oo st).
Proof.
  intros Hst. apply (valid_refs_extend st); [done| |].
  - pose proof (generateBundle_frame_eq options this oo st) as H'.
    injection H' as -> _ _ _ _ _. intros k r' Hget. by exists r'.
  - unfold generateBundle. destruct (mode options); [|done].
    pose proof (generateBundle_fold_files this oo (Obj.entries (cssMap st)) [] st)
      as Hlog.
    fold (generateBundle_emitted this oo st) in Hlog.
    destruct (generateBundle_emitted this oo st) as [em st1]. simpl in *.
    rewrite Hlog, <- app_assoc. by apply prefix_app_r.
Qed.

Lemma call_valid st c : valid_refs st -> valid_refs (call options st c).
Proof.
  intros Hst. destruct c as [this [id importer|code chunk|code id|oo]];
    unfold call; simpl; [done|..].
  - by apply renderChunk_valid.
  - unfold transform. destruct (mode options); simpl.
    + unfold transform_server. repeat case_match; auto using transform_inline_valid.
    + pose proof (transform_client_frame_eq options this code id st) as H'.
      apply (valid_refs_extend st); [done| |].
      * injection H' as -> _ _ _ _. intros k r' Hget. by exists r'.
      * by injection H' as _ _ _ _ ->.
  - by apply generateBundle_valid.
Qed.

End ValidRefs.

(** X12: in every state a build can reach, each reference recorded in a
    style record is the reference of a chunk the plugin itself emitted for
    the [?inline&used] variant of some style sheet; so the file names
    [generateBundle] asks the host for are those of such chunks. *)
Theorem recorded_references_are_style_chunks {ext : Externals}
    (options : SSRStylesPluginOptions) (graph : gmap string (list string))
    (chunks : gset string) (calls : list (PluginContext * HookCall))
    (k : string) (r : StyleRecord) (ref : ReferenceId) :
  (k, r) ∈ cssMap (run options calls (SSRStylesPlugin options graph chunks)) ->
  ref ∈ files r ->
  exists name file,
    emittedFiles (run options calls (SSRStylesPlugin options graph chunks)) !! ref
    = Some (EmittedChunk name (file +:+ "?inline&used")).
Proof.
  intros Hin Href.
  assert (valid_refs (run options calls (SSRStylesPlugin options graph chunks))) as Hvalid.
  { unfold run. apply (fold_left_invariant valid_refs).
    - intros k' r' ref' Hget. done.
    - intros a c Ha. by apply call_valid. }
  apply (Hvalid k r ref); [|done].
  apply elem_of_get; [apply cssMap_keys_distinct|done].
Qed.

Lemma recorded_references_are_style_chunks_witness :
  exists name file,
    emittedFiles (run Demo.inline_options
                    [(Demo.host, CallTransform Demo.two_imports "/src/a.vue")]
                    (SSRStylesPlugin Demo.inline_options Demo.graph_a ∅)) !! 1
    = Some (EmittedChunk name (file +:+ "?inline&used")).
Proof.
  apply (recorded_references_are_style_chunks Demo.inline_options Demo.graph_a ∅
           [(Demo.host, CallTransform Demo.two_imports "/src/a.vue")]
           "a.vue" {| files := [0; 1]; inBundle := None |} 1).
  - assert (cssMap (run Demo.inline_options
                      [(Demo.host, CallTransform Demo.two_imports "/src/a.vue")]
                      (SSRStylesPlugin Demo.inline_options Demo.graph_a ∅))
            = [("a.vue", {| files := [0; 1]; inBundle := None |})]) as ->
      by (vm_compute; reflexivity).
    by apply list_elem_of_singleton.
  - simpl. apply list_elem_of_In. simpl. tauto.
Defined.

(** ** Server-pass style resolver: which warnings a transform issues *)

Lemma fold_left_invariant_elem {A B} (P : A -> Prop) (f : A -> B -> A)
    (l : list B) (a : A) :
  P a -> (forall a x, x ∈ l -> P a -> P (f a x)) -> P (fold_left f l a).
Proof.
  revert a. induction l as [|x l IH]; intros a Ha Hf; simpl; [done|].
  apply IH.
  - apply Hf; [by left|done].
  - intros a' x' Hx'. apply Hf. by right.
Qed.

Section WarningSources.
Context {ext : Externals}.
Variable options : SSRStylesPluginOptions.

Lemma warnOnce_elem key subject st w :
  w ∈ warnings (warnOnce key subject st) ->
  w ∈ warnings st \/ w = {| warn_key := key; warn_message := cannot_extract subject |}.
Proof.
  unfold warnOnce. case_bool_decide; [by left|]. simpl.
  intros [?|?%list_elem_of_singleton]%elem_of_app; [by left|by right].
Qed.

Lemma warnOnce_cache key subject st :
  key ∈ warnCache (warnOnce key subject st) /\
  warnCache st ⊆ warnCache (warnOnce key subject st).
Proof.
  unfold warnOnce. case_bool_decide; simpl; [done|]. set_solver.
Qed.

Lemma graph_step_cache this id rel acc file :
  warnCache (fst acc)
  ⊆ warnCache (fst (transform_graph_step options this id rel ∅ acc file)) /\
  (graph_target this id file = None ->
   file ∈ warnCache (fst (transform_graph_step options this id rel ∅ acc file))).
Proof.
  unfold transform_graph_step, graph_target. destruct acc as [a n].
  rewrite (bool_decide_false (file ∈ (∅ : gset string))) by apply not_elem_of_empty.
  destruct (warnOnce_cache file file a) as [Hin Hsub].
  destruct (nullish (resolve this file None) _); simpl; [|done].
  destruct (nullish (resolve this (inline_used file) None) _); simpl; done.
Qed.

Lemma import_step_cache this id rel acc i :
  warnCache (fst acc)
  ⊆ warnCache (fst (transform_import_step options this id rel ∅ acc i)).
Proof.
  unfold transform_import_step. destruct acc as [a n].
  destruct (negb _ && negb _); [done|].
  destruct (resolve this (specifier i) (Some id)) as [resolved|]; [|done].
  rewrite (bool_decide_false (rid resolved ∈ (∅ : gset string)))
    by apply not_elem_of_empty.
  destruct (resolve this (inline_used (rid resolved)) None); simpl; [done|].
  apply warnOnce_cache.
Qed.

Lemma graph_fold_cache this id rel (l : list string) acc file :
  file ∈ l ->
  graph_target this id file = None ->
  file ∈ warnCache (fst (fold_left (transform_graph_step options this id rel ∅) l acc)).
Proof.
  revert acc. induction l as [|x l IH]; intros acc Hin Hnone.
  - by apply elem_of_nil in Hin.
  - cbn [fold_left]. apply elem_of_cons in Hin as [->|Hin]; [|by apply IH].
    apply (fold_left_invariant (fun b => x ∈ warnCache (fst b))).
    + by apply graph_step_cache.
    + intros b y Hb. by apply (graph_step_cache this id rel b y).
Qed.

Lemma graph_step_warnings this id rel acc file w :
  w ∈ warnings (fst (transform_graph_step options this id rel ∅ acc file)) ->
  w ∈ warnings (fst acc) \/
  (graph_target this id file = None /\
   w = {| warn_key := file; warn_message := cannot_extract file |}).
Proof.
  unfold transform_graph_step, graph_target. destruct acc as [a n].
  rewrite (bool_decide_false (file ∈ (∅ : gset string))) by apply not_elem_of_empty.
  destruct (nullish (resolve this file None) _) as [resolved|]; simpl.
  - destruct (nullish (resolve this (inline_used file) None) _) as [res|]; simpl.
    + intros Hw. by left.
    + intros [Hw|Hw]%warnOnce_elem; [by left|by right].
  - intros [Hw|Hw]%warnOnce_elem; [by left|by right].
Qed.

Lemma import_step_warnings this id rel acc i w :
  w ∈ warnings (fst (transform_import_step options this id rel ∅ acc i)) ->
  w ∈ warnings (fst acc) \/
  (exists resolved,
     resolve this (specifier i) (Some id) = Some resolved /\
     resolve this (inline_used (rid resolved)) None = None /\
     w = {| warn_key := rid resolved; warn_message := cannot_extract (specifier i) |}).
Proof.
  unfold transform_import_step. destruct acc as [a n].
  destruct (negb _ && negb _); [by left|].
  destruct (resolve this (specifier i) (Some id)) as [resolved|] eqn:Hres;
    [|by left].
  rewrite (bool_decide_false (rid resolved ∈ (∅ : gset string)))
    by apply not_elem_of_empty.
  destruct (resolve this (inline_used (rid resolved)) None) eqn:Hinl; simpl.
  - intros Hw. by left.
  - intros [Hw|Hw]%warnOnce_elem; [by left|].
    right. by exists resolved.
Qed.

End WarningSources.

(** X13: once past its guards, a server-pass transform warns about
    nothing but style sheets it could not extract: every warning in the log
    afterwards was there before, or is about a file of the module's graph
    set that failed one of its two resolutions (key and message name that
    file), or, for a supported source file, about a style import that
    resolved but has no inline variant (the key is the resolved id, the
    message names the specifier).  And every file of the graph set that
    failed is in [warnCache] afterwards. *)
Theorem transform_warns_only_about_failures {ext : Externals}
    (options : SSRStylesPluginOptions) (this : PluginContext)
    (code id path : string) (st : PluginState) :
  (forall w, w ∈ warnings (transform_inline options this code id path st) ->
     w ∈ warnings st \/
     (exists file, file ∈ graph_set (clientCSSMap st) id /\
        graph_target this id file = None /\
        w = {| warn_key := file; warn_message := cannot_extract file |}) \/
     (SUPPORTED_FILES_RE path = true /\
      exists i resolved, i ∈ findStaticImports code /\
        resolve this (specifier i) (Some id) = Some resolved /\
        resolve this (rid resolved +:+ "?inline&used") None = None /\
        w = {| warn_key := rid resolved;
               warn_message := cannot_extract (specifier i) |})) /\
  (forall file, file ∈ graph_set (clientCSSMap st) id ->
     graph_target this id file = None ->
     file ∈ warnCache (transform_inline options this code id path st)).
Proof.
  set (Src := fun w : Warning =>
     w ∈ warnings st \/
     (exists file, file ∈ graph_set (clientCSSMap st) id /\
        graph_target this id file = None /\
        w = {| warn_key := file; warn_message := cannot_extract file |}) \/
     (SUPPORTED_FILES_RE path = true /\
      exists i resolved, i ∈ findStaticImports code /\
        resolve this (specifier i) (Some id) = Some resolved /\
        resolve this (rid resolved +:+ "?inline&used") None = None /\
        w = {| warn_key := rid resolved;
               warn_message := cannot_extract (specifier i) |})).
  unfold transform_inline.
  set (rel := relativeToSrcDir options id).
  set (st1 := if Obj.has rel (cssMap st) then st else _).
  assert (warnings st1 = warnings st) as Hw1 by (subst st1; by case_match).
  assert (clientCSSMap st1 = clientCSSMap st) as -> by (subst st1; by case_match).
  fold (graph_set (clientCSSMap st) id).
  set (acc := fold_left _ (graph_set (clientCSSMap st) id) _).
  assert (Hacc : forall w, w ∈ warnings (fst acc) -> Src w).
  { subst acc. apply (fold_left_invariant_elem
                        (fun a => forall w, w ∈ warnings (fst a) -> Src w)).
    - intros w Hw. left. simpl in Hw. by rewrite <- Hw1.
    - intros a file Hfile Ha w Hw.
      apply graph_step_warnings in Hw as [Hw|[Hnone ->]]; [by apply Ha|].
      right; left. by exists file. }
  assert (Hcache : forall file, file ∈ graph_set (clientCSSMap st) id ->
            graph_target this id file = None -> file ∈ warnCache (fst acc)).
  { intros file Hin Hnone. subst acc. by apply graph_fold_cache. }
  split.
  - destruct (SUPPORTED_FILES_RE path) eqn:Hsup; simpl; [|done].
    apply (fold_left_invariant_elem
             (fun a => forall w, w ∈ warnings (fst a) -> Src w)); [done|].
    intros a i Hi Ha w Hw.
    apply import_step_warnings in Hw as [Hw|(resolved & Hres & Hinl & ->)];
      [by apply Ha|].
    right; right. split; [done|]. by exists i, resolved.
  - intros file Hin Hnone. specialize (Hcache file Hin Hnone).
    destruct (SUPPORTED_FILES_RE path); simpl; [|done].
    apply (fold_left_invariant (fun b => file ∈ warnCache (fst b))); [done|].
    intros b y Hb. by apply (import_step_cache options this id rel b y).
Qed.

Lemma transform_warns_only_about_failures_witness :
  "/src/missing.css"
  ∈ warnCache (transform_inline Demo.inline_options Demo.host "" "/src/a.vue"
                 "/src/a.vue" (SSRStylesPlugin Demo.inline_options Demo.graph_missing ∅)).
Proof.
  destruct (transform_warns_only_about_failures Demo.inline_options Demo.host ""
              "/src/a.vue" "/src/a.vue"
              (SSRStylesPlugin Demo.inline_options Demo.graph_missing ∅)) as [_ H].
  apply H; [|reflexivity].
  assert (graph_set (clientCSSMap (SSRStylesPlugin Demo.inline_options
                                     Demo.graph_missing ∅)) "/src/a.vue"
          = ["/src/missing.css"]) as -> by (vm_compute; reflexivity).
  by apply list_elem_of_singleton.
Defined.

(** ** Client-pass transform: global style sheets *)

Section ClientTransform.
Context {ext : Externals}.

Lemma nonempty_append (a b : string) :
  Str.nonempty (a +:+ b) = Str.nonempty a || Str.nonempty b.
Proof. by destruct a. Qed.

Lemma global_step_cases this id st intro file :
  transform_global_step this id (st, intro) file
  = match global_target this id file with
    | Some y => (with_clientCSSMap (ensure_add id y (clientCSSMap st)) st, intro)
    | None => (warnOnce file file st, (genImport file +:+ nl) +:+ intro)
    end.
Proof.
  unfold transform_global_step, global_target.
  destruct (nullish (resolve this file None) _); [|done].
  by destruct (nullish (resolve this (inline_used file) None) _).
Qed.

Lemma global_fold_intro this id (l : list string) st intro :
  snd (fold_left (transform_global_step this id) l (st, intro))
  = fold_left (fun intro file => (genImport file +:+ nl) +:+ intro)
      (List.filter (fun f => bool_decide (global_target this id f = None)) l) intro.
Proof.
  revert st intro. induction l as [|f l IH]; intros st intro; [done|].
  cbn [fold_left List.filter]. rewrite global_step_cases.
  destruct (global_target this id f) as [y|]; simpl; by rewrite IH.
Qed.

Lemma warnOnce_graph key subject st :
  clientCSSMap (warnOnce key subject st) = clientCSSMap st.
Proof. unfold warnOnce. by case_bool_decide. Qed.

Lemma global_fold_graph this id (l : list string) st intro k y :
  y ∈ graph_set (clientCSSMap (fst (fold_left (transform_global_step this id) l
                                     (st, intro)))) k
  <-> y ∈ graph_set (clientCSSMap st) k \/
      (k = id /\ exists f, f ∈ l /\ global_target this id f = Some y).
Proof.
  revert st intro. induction l as [|f l IH]; intros st intro.
  - simpl. split; [by left|]. by intros [?|(_ & f & ?%elem_of_nil & _)].
  - cbn [fold_left]. rewrite global_step_cases.
    destruct (global_target this id f) as [y'|] eqn:Hf; rewrite IH; simpl.
    + rewrite ensure_add_sets. split.
      * intros [[?|[-> ->]]|(-> & f' & Hin & Hf')]; [by left| |].
        -- right. split; [done|]. exists f. split; [by left|done].
        -- right. split; [done|]. exists f'. split; [by right|done].
      * intros [?|(-> & f' & [->|Hin]%elem_of_cons & Hf')]; [by left; left| |].
        -- left; right. split; [done|]. congruence.
        -- right. split; [done|]. by exists f'.
    + rewrite warnOnce_graph. split.
      * intros [?|(-> & f' & Hin & Hf')]; [by left|].
        right. split; [done|]. exists f'. split; [by right|done].
      * intros [?|(-> & f' & [->|Hin]%elem_of_cons & Hf')]; [by left|congruence|].
        right. split; [done|]. by exists f'.
Qed.

Lemma prepended_nonempty (l : list string) (intro : string) :
  Str.nonempty
    (fold_left (fun intro file => (genImport file +:+ nl) +:+ intro) l intro)
  = Str.nonempty intro || negb (bool_decide (l = [])).
Proof.
  revert intro. induction l as [|f l IH]; intros intro; simpl.
  - by rewrite orb_false_r.
  - rewrite IH, !nonempty_append. simpl.
    by destruct (Str.nonempty (genImport f)), (Str.nonempty intro),
      (bool_decide (l = [])).
Qed.

End ClientTransform.

(** X14: in the client pass, [transform] of the entry module with
    inlining requested hands code back exactly when some global style sheet
    fails one of its two resolutions: the code is then the original code
    with one import per failing file put in front, the import of the last
    failing file first; when every file resolves (or there is none) it hands
    back nothing.  For any other module, or without inlining requested, it
    does nothing at all. *)
Theorem client_transform_prepends_failed_imports {ext : Externals}
    (options : SSRStylesPluginOptions) (this : PluginContext)
    (code id : string) (st : PluginState) :
  mode options = ModeClient ->
  (id = entry options ->
   inlineRequested (shouldInline options) (Some id) = true ->
   snd (transform options this code id st)
   = match List.filter (fun f => bool_decide (global_target this id f = None))
             (globalCSS options) with
     | [] => None
     | failed => Some (prepended_imports failed +:+ code)
     end) /\
  (id <> entry options \/ inlineRequested (shouldInline options) (Some id) = false ->
   transform options this code id st = (st, None)).
Proof.
  intros Hmode. unfold transform. rewrite Hmode. unfold transform_client. split.
  - intros -> ->. rewrite bool_decide_true by done. simpl.
    destruct (globalCSS options) as [|f l] eqn:Hglobal; [done|].
    rewrite <- Hglobal.
    match goal with
    | |- context [fold_left (transform_global_step ?t ?i) ?l (?s, ?e)] =>
        pose proof (global_fold_intro t i l s e) as Hintro
    end.
    destruct (fold_left _ _ _) as [st' intro]. simpl in *. subst intro.
    rewrite prepended_nonempty. simpl. unfold prepended_imports.
    destruct (List.filter _ (globalCSS options)); [done|].
    by rewrite bool_decide_false.
  - intros [Hid|Hreq].
    + by rewrite bool_decide_false.
    + by rewrite Hreq, andb_false_r.
Qed.

(** X15: in the client pass, [transform] of the entry module with
    inlining requested makes the entry a key of the graph and adds to its
    set exactly the resolved ids of the global style sheets that pass both
    resolutions; no other set changes, and nothing is removed. *)
Theorem client_transform_teleports_global_css {ext : Externals}
    (options : SSRStylesPluginOptions) (this : PluginContext)
    (code : string) (st : PluginState) (k y : string) :
  mode options = ModeClient ->
  inlineRequested (shouldInline options) (Some (entry options)) = true ->
  is_Some (clientCSSMap (fst (transform options this code (entry options) st))
             !! entry options) /\
  (y ∈ graph_set (clientCSSMap (fst (transform options this code (entry options) st))) k
   <-> y ∈ graph_set (clientCSSMap st) k \/
       (k = entry options /\
        exists f, f ∈ globalCSS options /\
          global_target this (entry options) f = Some y)).
Proof.
  intros Hmode Hreq. unfold transform. rewrite Hmode. unfold transform_client.
  rewrite bool_decide_true, Hreq by done. simpl.
  destruct (globalCSS options) as [|f l] eqn:Hglobal.
  - simpl. split; [apply ensure_set_key|]. rewrite ensure_set_sets.
    split; [by left|]. by intros [?|(_ & f & ?%elem_of_nil & _)].
  - rewrite <- Hglobal.
    match goal with
    | |- context [fold_left (transform_global_step ?t ?i) ?l (?s, ?e)] =>
        pose proof (global_fold_graph t i l s e) as Hgraph;
        pose proof (fold_left_invariant
                      (fun a => is_Some (clientCSSMap (fst a) !! entry options))
                      (transform_global_step t i) l (s, e)) as Hkey
    end.
    destruct (fold_left _ _ _) as [st' intro]. simpl in *. split.
    + apply Hkey; [apply ensure_set_key|].
      intros [a pre] x Ha. rewrite global_step_cases.
      destruct (global_target this (entry options) x); simpl.
      * eapply graph_le_key; [apply ensure_add_le|done].
      * by rewrite warnOnce_graph.
    + by rewrite Hgraph, ensure_set_sets.
Qed.

Lemma client_transform_prepends_failed_imports_witness :
  snd (transform ClientDemo.options Demo.host "code" "/src/entry.ts" ClientDemo.fresh)
  = Some (prepended_imports ["/src/missing.css"] +:+ "code") /\
  transform ClientDemo.options Demo.host "code" "/src/a.vue" ClientDemo.fresh
  = (ClientDemo.fresh, None).
Proof.
  destruct (client_transform_prepends_failed_imports ClientDemo.options Demo.host
              "code" "/src/entry.ts" ClientDemo.fresh eq_refl) as [H _].
  destruct (client_transform_prepends_failed_imports ClientDemo.options Demo.host
              "code" "/src/a.vue" ClientDemo.fresh eq_refl) as [_ H'].
  split.
  - rewrite H by reflexivity. reflexivity.
  - apply H'. left. discriminate.
Defined.

Lemma client_transform_teleports_global_css_witness :
  "/src/a.css"
  ∈ graph_set (clientCSSMap (fst (transform ClientDemo.options Demo.host "code"
                                    "/src/entry.ts" ClientDemo.fresh)))
      "/src/entry.ts".
Proof.
  destruct (client_transform_teleports_global_css ClientDemo.options Demo.host "code"
              ClientDemo.fresh "/src/entry.ts" "/src/a.css" eq_refl eq_refl) as [_ H].
  apply H. right. split; [reflexivity|].
  exists "/src/a.css". split; [|reflexivity].
  apply list_elem_of_In. simpl. tauto.
Defined.

(** ** Component names *)

Section NamesFacts.
Variable splitByCase : string -> list string.
Variable toLowerCase : string -> string.

Lemma find_app {A} (f : A -> bool) (l1 l2 : list A) :
  List.find f (l1 ++ l2)
  = match List.find f l1 with Some x => Some x | None => List.find f l2 end.
Proof.
  induction l1 as [|x l1 IH]; simpl; [done|]. by destruct (f x).
Qed.

Lemma matched_suffix_step (prefixParts : list string) (index : nat) (p : string) :
  prefixParts !! index = Some p ->
  matched_suffix splitByCase toLowerCase prefixParts index
  = map toLowerCase (splitByCase p)
    ++ matched_suffix splitByCase toLowerCase prefixParts (S index).
Proof.
  intros Hp. unfold matched_suffix. by rewrite (drop_S _ _ _ Hp).
Qed.

Lemma segments_loop_spec (prefixParts : list string) (fileName : string) (n : nat)
    (componentNameParts : list (option string)) :
  n <= length prefixParts ->
  segments_loop splitByCase toLowerCase prefixParts
    (toLowerCase (join_slash (splitByCase fileName))) n
    (matched_suffix splitByCase toLowerCase prefixParts n) componentNameParts
  = match List.find (segment_matches splitByCase toLowerCase prefixParts fileName)
            (seq 0 n) with
    | Some m => resize m None componentNameParts
    | None => componentNameParts
    end.
Proof.
  revert componentNameParts. induction n as [|index IH]; intros cnp Hn; [done|].
  destruct (lookup_lt_is_Some_2 prefixParts index) as [p Hp]; [lia|].
  cbn [segments_loop]. rewrite Hp. cbn [default from_option]. unfold id.
  rewrite <- (matched_suffix_step prefixParts index p Hp).
  rewrite IH by lia. rewrite seq_S, find_app. simpl.
  fold (segment_matches splitByCase toLowerCase prefixParts fileName index).
  destruct (List.find _ (seq 0 index)) as [m|] eqn:Hfind.
  - apply find_some in Hfind as [Hm%in_seq _].
    destruct (segment_matches _ _ _ _ index); [|done].
    apply resize_resize. lia.
  - by destruct (segment_matches _ _ _ _ index).
Qed.

Lemma resolveComponentNameSegments_cuts_at_first_match'
    (fileName : string) (prefixParts : list string) :
  resolveComponentNameSegments splitByCase toLowerCase fileName prefixParts
  = match first_match splitByCase toLowerCase prefixParts fileName with
    | Some m => resize m None (map Some (flat_map splitByCase prefixParts))
    | None => map Some (flat_map splitByCase prefixParts)
    end
    ++ map Some (splitByCase fileName).
Proof.
  unfold resolveComponentNameSegments, first_match. f_equal.
  rewrite <- segments_loop_spec by done.
  f_equal. unfold matched_suffix. by rewrite drop_all.
Qed.

End NamesFacts.

(** X16: the loop of [resolveComponentNameSegments] amounts to one cut:
    the result is the segments of the prefix parts, cut (or padded with
    [undefined]) to the least index at which the round's test holds for the
    lower-cased segments of the prefix parts from that index on, and left
    whole when it holds at no index, followed by the segments of the file
    name. *)
Theorem resolveComponentNameSegments_cuts_at_first_match
    (splitByCase : string -> list string) (toLowerCase : string -> string)
    (fileName : string) (prefixParts : list string) :
  resolveComponentNameSegments splitByCase toLowerCase fileName prefixParts
  = match first_match splitByCase toLowerCase prefixParts fileName with
    | Some m => resize m None (map Some (flat_map splitByCase prefixParts))
    | None => map Some (flat_map splitByCase prefixParts)
    end
    ++ map Some (splitByCase fileName).
Proof.
  apply resolveComponentNameSegments_cuts_at_first_match'.
Qed.

(** X17: when every prefix part splits into at least one segment, the
    result of [resolveComponentNameSegments] has no [undefined] entry: it is
    a leading part of the segments of the prefix parts followed by the
    segments of the file name. *)
Theorem resolveComponentNameSegments_has_no_holes
    (splitByCase : string -> list string) (toLowerCase : string -> string)
    (fileName : string) (prefixParts : list string) :
  Forall (fun p => splitByCase p <> []) prefixParts ->
  exists m,
    resolveComponentNameSegments splitByCase toLowerCase fileName prefixParts
    = map Some (take m (flat_map splitByCase prefixParts) ++ splitByCase fileName).
Proof.
  intros Hparts.
  assert (Hlen : length prefixParts <= length (flat_map splitByCase prefixParts)).
  { induction Hparts as [|p l Hp _ IH]; simpl; [done|].
    rewrite length_app. destruct (splitByCase p); [done|]. simpl. lia. }
  rewrite resolveComponentNameSegments_cuts_at_first_match'.
  unfold first_match.
  destruct (List.find _ _) as [m|] eqn:Hfind.
  - apply find_some in Hfind as [Hm%in_seq _].
    exists m. rewrite resize_le by (rewrite length_map; lia).
    by rewrite map_app, <- fmap_take.
  - exists (length (flat_map splitByCase prefixParts)).
    by rewrite firstn_all, map_app.
Qed.

(** X18: when the test holds at index 0, that is, when the lower-cased
    segments of the file name are, or start with, the lower-cased segments
    of all prefix parts (or the first prefix part is the file name and is
    repeated, as in [Item/Item/Item.vue]), nothing of the prefix is kept:
    the result is the segments of the file name alone. *)
Theorem resolveComponentNameSegments_drops_matched_prefix
    (splitByCase : string -> list string) (toLowerCase : string -> string)
    (fileName : string) (prefixParts : list string) :
  segment_matches splitByCase toLowerCase prefixParts fileName 0 = true ->
  resolveComponentNameSegments splitByCase toLowerCase fileName prefixParts
  = map Some (splitByCase fileName).
Proof.
  intros Hmatch.
  rewrite resolveComponentNameSegments_cuts_at_first_match'.
  unfold first_match. destruct prefixParts as [|p l]; [done|].
  cbn [length seq List.find]. by rewrite Hmatch, resize_0.
Qed.

Lemma resolveComponentNameSegments_has_no_holes_witness :
  exists m,
    resolveComponentNameSegments NamesDemo.splitByCase NamesDemo.toLowerCase
      "item" ["shop"; "item"]
    = map Some (take m (flat_map NamesDemo.splitByCase ["shop"; "item"])
                ++ NamesDemo.splitByCase "item").
Proof.
  apply (resolveComponentNameSegments_has_no_holes NamesDemo.splitByCase
           NamesDemo.toLowerCase "item" ["shop"; "item"]).
  repeat constructor; discriminate.
Defined.

Lemma resolveComponentNameSegments_drops_matched_prefix_witness :
  resolveComponentNameSegments NamesDemo.splitByCase NamesDemo.toLowerCase
    "item" ["item"; "item"]
  = map Some (NamesDemo.splitByCase "item").
Proof.
  apply (resolveComponentNameSegments_drops_matched_prefix NamesDemo.splitByCase
           NamesDemo.toLowerCase "item" ["item"; "item"]).
  reflexivity.
Defined.
